(** * Field-level authenticated encryption: [lib/security/encryption.js]
      and the [encrypt-ssns] sweep of [scripts/db-utils.js]

    A shallow embedding of the encryption utility and of the migration
    command, with the properties the specification states about them.

    Data model.
    - A JavaScript string is a sequence of UTF-16 code units: [list Z],
      each unit in [0, 65536).
    - A [Buffer] is a [list byte].
    - A row id is the integer stored in the table; what the command sees
      of it is the JavaScript number the driver returns.
    - The entropy source behind [randomBytes] is an explicit state.
    - [node:crypto]'s AES-256-GCM is an external provider: it enters as
      section variables, with the part of its contract a property needs
      as a section hypothesis.

    The later parts cover the other code of the report: the password
    rules, the age rule of the date of birth, the transaction list and
    the database connection. *)

From Stdlib Require Import ZArith List Bool Lia.
From Stdlib.Strings Require Import Byte String Ascii.
Import ListNotations.
Local Open Scope Z_scope.

(* ================================================================== *)
(** * Bytes *)

Module Bytes.

Definition to_Z (b : byte) : Z := Z.of_N (Byte.to_N b).

(** Storing an integer into a [Uint8Array] cell keeps its low 8 bits. *)
Definition of_Z (z : Z) : byte :=
  match Byte.of_N (Z.to_N (z mod 256)) with
  | Some b => b
  | None => x00
  end.

Definition eqb (a b : byte) : bool := Byte.eqb a b.


End Bytes.

(* ================================================================== *)
(** * JavaScript strings *)

(** A string value: its UTF-16 code units, in order. *)
Definition jsstring := list Z.

Definition code_unit (c : Z) : Prop := 0 <= c < 65536.

(** An ASCII literal as a string value. *)
Fixpoint js (s : string) : jsstring :=
  match s with
  | EmptyString => []
  | String a rest => Z.of_N (N_of_ascii a) :: js rest
  end.

(** The delimiter of the envelope, [":"]. *)
Definition colon : Z := 58.

(** [s.includes(":")] *)
Definition includes (s : jsstring) (c : Z) : bool :=
  existsb (Z.eqb c) s.

(** How many times the unit [c] occurs in [s]. *)
Definition occurrences (c : Z) (s : jsstring) : nat :=
  List.length (filter (Z.eqb c) s).

(** [s.split(sep)] for a one-unit separator: never an empty array. *)
Fixpoint split (sep : Z) (s : jsstring) : list jsstring :=
  match s with
  | [] => [[]]
  | c :: rest =>
      if c =? sep then [] :: split sep rest
      else match split sep rest with
           | seg :: segs => (c :: seg) :: segs
           | [] => [[c]]
           end
  end.

(** [parts.join(sep)] *)
Fixpoint join (sep : Z) (parts : list jsstring) : jsstring :=
  match parts with
  | [] => []
  | [p] => p
  | p :: rest => p ++ sep :: join sep rest
  end.

(* ================================================================== *)
(** * Hex transport encoding: [buf.toString("hex")], [Buffer.from(s, "hex")] *)

Module Hex.

(** The digit of a nibble, lower case. *)
Definition digit (n : Z) : Z := if n <? 10 then 48 + n else 87 + n.

(** The value of a hex digit, either case; [None] for any other unit. *)
Definition digit_value (c : Z) : option Z :=
  if (48 <=? c) && (c <=? 57) then Some (c - 48)
  else if (97 <=? c) && (c <=? 102) then Some (c - 87)
  else if (65 <=? c) && (c <=? 70) then Some (c - 55)
  else None.

(** A unit that is one of [0-9], [a-f], [A-F]. *)
Definition is_hex_digit (c : Z) : bool :=
  match digit_value c with Some _ => true | None => false end.

(** The decoder's reading of one unit of a string: the unit is narrowed
    to its low byte before the digit table is consulted, so a unit above
    255 counts as the digit its low byte spells (U+0130 as the digit
    zero). *)
Definition unhex (c : Z) : option Z := digit_value (c mod 256).

(** [buf.toString("hex")]: two lower-case digits per byte. *)
Fixpoint encode (bs : list byte) : jsstring :=
  match bs with
  | [] => []
  | b :: rest =>
      digit (Bytes.to_Z b / 16) :: digit (Bytes.to_Z b mod 16) :: encode rest
  end.

(** [Buffer.from(s, "hex")]: pairs of units are decoded from the left,
    each unit read by [unhex]; decoding stops at the first pair in which
    a unit is not read as a digit, and a trailing single unit is
    dropped. *)
Fixpoint decode (s : jsstring) : list byte :=
  match s with
  | c1 :: c2 :: rest =>
      match unhex c1, unhex c2 with
      | Some hi, Some lo => Bytes.of_Z (16 * hi + lo) :: decode rest
      | _, _ => []
      end
  | _ => []
  end.

End Hex.

(* ================================================================== *)
(** * UTF-8 text encoding: [Buffer.from(s, "utf8")], [buf.toString("utf8")] *)

Module Utf8.

Definition is_high_surrogate (c : Z) : bool := (0xD800 <=? c) && (c <=? 0xDBFF).
Definition is_low_surrogate (c : Z) : bool := (0xDC00 <=? c) && (c <=? 0xDFFF).

(** U+FFFD, written for whatever cannot be encoded or decoded. *)
Definition replacement : Z := 0xFFFD.

(** The code point of a surrogate pair. *)
Definition pair_code_point (hi lo : Z) : Z :=
  0x10000 + (hi - 0xD800) * 0x400 + (lo - 0xDC00).

(** The bytes of one code point. *)
Definition encode_code_point (cp : Z) : list Z :=
  if cp <? 0x80 then [cp]
  else if cp <? 0x800 then [0xC0 + cp / 64; 0x80 + cp mod 64]
  else if cp <? 0x10000 then
    [0xE0 + cp / 4096; 0x80 + (cp / 64) mod 64; 0x80 + cp mod 64]
  else
    [0xF0 + cp / 262144; 0x80 + (cp / 4096) mod 64;
     0x80 + (cp / 64) mod 64; 0x80 + cp mod 64].

(** The encoder walks the code units: a high surrogate followed by a low
    one is a single code point, any other surrogate is written as U+FFFD. *)
Fixpoint encode_units (s : jsstring) : list Z :=
  match s with
  | [] => []
  | c :: rest =>
      if is_high_surrogate c then
        match rest with
        | d :: rest' =>
            if is_low_surrogate d
            then encode_code_point (pair_code_point c d) ++ encode_units rest'
            else encode_code_point replacement ++ encode_units rest
        | [] => encode_code_point replacement
        end
      else if is_low_surrogate c then
        encode_code_point replacement ++ encode_units rest
      else encode_code_point c ++ encode_units rest
  end.

(** [Buffer.from(s, "utf8")], and what [cipher.update(s, "utf8")] reads. *)
Definition encode (s : jsstring) : list byte := map Bytes.of_Z (encode_units s).

(** The decoder's state between two bytes. *)
Record state := {
  code_point : Z;
  bytes_needed : Z;
  bytes_seen : Z;
  lower_boundary : Z;
  upper_boundary : Z
}.

Definition initial : state :=
  {| code_point := 0; bytes_needed := 0; bytes_seen := 0;
     lower_boundary := 0x80; upper_boundary := 0xBF |}.

(** The code units of a decoded code point. *)
Definition emit (cp : Z) : jsstring :=
  if cp <? 0x10000 then [cp]
  else [0xD800 + (cp - 0x10000) / 0x400; 0xDC00 + (cp - 0x10000) mod 0x400].

(** A byte read when no sequence is open. *)
Definition lead (b : Z) : state * jsstring :=
  if b <=? 0x7F then (initial, [b])
  else if (0xC2 <=? b) && (b <=? 0xDF) then
    ({| code_point := b - 0xC0; bytes_needed := 1; bytes_seen := 0;
        lower_boundary := 0x80; upper_boundary := 0xBF |}, [])
  else if (0xE0 <=? b) && (b <=? 0xEF) then
    ({| code_point := b - 0xE0; bytes_needed := 2; bytes_seen := 0;
        lower_boundary := if b =? 0xE0 then 0xA0 else 0x80;
        upper_boundary := if b =? 0xED then 0x9F else 0xBF |}, [])
  else if (0xF0 <=? b) && (b <=? 0xF4) then
    ({| code_point := b - 0xF0; bytes_needed := 3; bytes_seen := 0;
        lower_boundary := if b =? 0xF0 then 0x90 else 0x80;
        upper_boundary := if b =? 0xF4 then 0x8F else 0xBF |}, [])
  else (initial, [replacement]).

(** One byte: a continuation byte outside the expected range closes the
    open sequence with U+FFFD and is then read again as a first byte. *)
Definition step (st : state) (b : Z) : state * jsstring :=
  if bytes_needed st =? 0 then lead b
  else if (lower_boundary st <=? b) && (b <=? upper_boundary st) then
    let cp := code_point st * 64 + (b - 0x80) in
    if bytes_seen st + 1 =? bytes_needed st then (initial, emit cp)
    else ({| code_point := cp; bytes_needed := bytes_needed st;
             bytes_seen := bytes_seen st + 1;
             lower_boundary := 0x80; upper_boundary := 0xBF |}, [])
  else let (st', out) := lead b in (st', replacement :: out).

(** A sequence still open at the end of input is one U+FFFD. *)
Fixpoint run (st : state) (bs : list Z) : jsstring :=
  match bs with
  | [] => if bytes_needed st =? 0 then [] else [replacement]
  | b :: rest => let (st', out) := step st b in out ++ run st' rest
  end.

(** [buf.toString("utf8")] *)
Definition decode (bs : list byte) : jsstring := run initial (map Bytes.to_Z bs).

(** [s.isWellFormed()]: no surrogate outside a high-low pair. *)
Fixpoint isWellFormed (s : jsstring) : bool :=
  match s with
  | [] => true
  | c :: rest =>
      if is_high_surrogate c then
        match rest with
        | d :: rest' => is_low_surrogate d && isWellFormed rest'
        | [] => false
        end
      else negb (is_low_surrogate c) && isWellFormed rest
  end.

(** A code point that is a Unicode scalar value. *)
Definition scalar (cp : Z) : Prop :=
  0 <= cp < 0x110000 /\ ~ (0xD800 <= cp <= 0xDFFF).

(** An integer that fits a byte. *)
Definition octet (z : Z) : Prop := 0 <= z < 256.

End Utf8.

(* ================================================================== *)
(** * Exceptions and the entropy source *)

(** The errors the utility can raise; all of them come from the runtime. *)
Inductive js_error : Type :=
| ERR_INVALID_ARG_TYPE        (* TypeError: Buffer.from(undefined, "hex") *)
| ERR_CRYPTO_INVALID_KEYLEN   (* RangeError: Invalid key length *)
| ERR_CRYPTO_INVALID_IV       (* TypeError: Invalid initialization vector *)
| ERR_CRYPTO_INVALID_AUTH_TAG (* TypeError: Invalid authentication tag length *)
| ERR_UNABLE_TO_AUTHENTICATE. (* Error: Unsupported state or unable to
                                 authenticate data, from decipher.final() *)

Inductive result (A : Type) : Type :=
| Ok (a : A)
| Throw (e : js_error).
Arguments Ok {A} a.
Arguments Throw {A} e.

Definition bind {A B : Type} (r : result A) (k : A -> result B) : result B :=
  match r with
  | Ok a => k a
  | Throw e => Throw e
  end.

Notation "'let*' x ':=' r 'in' k" := (bind r (fun x => k))
  (at level 10, x name, r at level 100, k at level 200).

(** The system's random source: an unbounded tape of bytes and the
    position of the next unread one. *)
Record entropy := {
  tape : nat -> byte;
  cursor : nat
}.

(** [randomBytes(n)] *)
Definition randomBytes (n : nat) (e : entropy) : list byte * entropy :=
  (map (tape e) (seq (cursor e) n),
   {| tape := tape e; cursor := (cursor e + n)%nat |}).

(** The nonce a call of [encrypt] draws from the random source. *)
Definition nonce (e : entropy) : list byte := fst (randomBytes 12 e).

(** The transport string of a (nonce, ciphertext, tag) triple. *)
Definition envelope (iv ct tag : list byte) : jsstring :=
  join colon [Hex.encode iv; Hex.encode ct; Hex.encode tag].

(* ================================================================== *)
(** * [lib/security/encryption.js] *)

Section Encryption.

(** [createCipheriv("aes-256-gcm", key, iv)], then [update] of the whole
    plaintext, [final] and [getAuthTag]: ciphertext and tag, or what the
    runtime throws. *)
Variable gcm_cipher :
  list byte -> list byte -> list byte -> result (list byte * list byte).

(** [createDecipheriv("aes-256-gcm", key, iv)], then [setAuthTag],
    [update] of the whole ciphertext and [final]: the plaintext, or what
    the runtime throws. *)
Variable gcm_decipher :
  list byte -> list byte -> list byte -> list byte -> result (list byte).

(** [process.env.ENCRYPTION_KEY]; [None] when the variable is not set. *)
Variable ENCRYPTION_KEY : option jsstring.

(** The hard-coded value after [??]. *)
Definition fallback_key : jsstring := js "0123456789abcdef0123456789abcdef".

(** [a ?? b] *)
Definition nullish {A : Type} (a : option A) (b : A) : A :=
  match a with
  | Some v => v
  | None => b
  end.

(** [const key = Buffer.from(process.env.ENCRYPTION_KEY ?? "0123...", "utf8")] *)
Definition key : list byte := Utf8.encode (nullish ENCRYPTION_KEY fallback_key).

(** What evaluating the module does: the outcome of computing [key] and
    the lines it writes to the console. *)
Record module_load := {
  resolved : result (list byte);
  warnings : list jsstring
}.

Definition load : module_load := {| resolved := Ok key; warnings := [] |}.

(** [export function encrypt(plain)] *)
Definition encrypt (plain : jsstring) (e : entropy) : result jsstring * entropy :=
  let (iv, e') := randomBytes 12 e in
  match gcm_cipher key iv (Utf8.encode plain) with
  | Throw err => (Throw err, e')
  | Ok (encrypted, tag) =>
      (Ok (join colon [Hex.encode iv; Hex.encode encrypted; Hex.encode tag]), e')
  end.

(** [Buffer.from(v, "hex")] where [v] may be [undefined]. *)
Definition Buffer_from_hex (v : option jsstring) : result (list byte) :=
  match v with
  | Some s => Ok (Hex.decode s)
  | None => Throw ERR_INVALID_ARG_TYPE
  end.

(** [export function decrypt(ciphertext)]: the destructuring takes the
    first three elements of the split and leaves a missing one undefined. *)
Definition decrypt (ciphertext : jsstring) : result jsstring :=
  let parts := split colon ciphertext in
  let ivHex := nth_error parts 0 in
  let encryptedHex := nth_error parts 1 in
  let tagHex := nth_error parts 2 in
  let* iv := Buffer_from_hex ivHex in
  let* encrypted := Buffer_from_hex encryptedHex in
  let* tag := Buffer_from_hex tagHex in
  let* decrypted := gcm_decipher key iv encrypted tag in
  Ok (Utf8.decode decrypted).

(* ------------------------------------------------------------------ *)
(** ** The [encrypt-ssns] command of [scripts/db-utils.js] *)

(** The columns [id] and [ssn] of a row of [users]; a NULL [ssn] is
    [None]. In the table, [id] is the integer that SQLite stores. In a
    row object that a query returns, [id] is a JavaScript number: see
    [select_all]. *)
Record user := {
  id : Z;
  ssn : option jsstring
}.

(** The JavaScript number the driver makes of a stored integer: the
    double nearest to it, a tie going to the even significand. An integer
    of absolute value up to [2 ^ 53] comes out as it is; of a larger one
    only the 53 leading bits are kept, rounded. SQLite keeps an id within
    64 bits; nothing below depends on that bound. *)
Definition to_number (z : Z) : Z :=
  let a := Z.abs z in
  if a <=? 2 ^ 53 then z
  else
    let k := Z.log2 a - 52 in
    let q := a / 2 ^ k in
    let r := a mod 2 ^ k in
    let half := 2 ^ (k - 1) in
    let q' := if r <? half then q
              else if half <? r then q + 1
              else if Z.even q then q else q + 1 in
    Z.sgn z * (q' * 2 ^ k).

(** An integer that is a JavaScript number as it stands. *)
Definition exact_number (z : Z) : Prop := to_number z = z.

(** [db.prepare("SELECT id, ssn FROM users").all()]: one object per row,
    in table order, the id as a number. *)
Definition select_all (table : list user) : list user :=
  map (fun u => {| id := to_number (id u); ssn := ssn u |}) table.

Inductive console_line : Type :=
| LogBanner                 (* "=== Encrypting existing SSNs ===" *)
| LogNoUsers                (* "No users found." *)
| LogEncrypted (uid : Z)    (* "Encrypted SSN for user ID ..." *)
| LogAllEncrypted.          (* "All SSNs encrypted." *)

(** What the command reads and writes: the table, the random source and
    the console. *)
Record world := {
  users : list user;
  rng : entropy;
  console : list console_line
}.

Definition log (l : console_line) (w : world) : world :=
  {| users := users w; rng := rng w; console := console w ++ [l] |}.

(** [update.run(encrypted, user.id)] for
    [UPDATE users SET ssn = ? WHERE id = ?]: [uid] is the number bound to
    the second parameter, and the rows written are those whose stored id
    is equal to it. *)
Definition update_run (encrypted : jsstring) (uid : Z) (table : list user) : list user :=
  map (fun u => if id u =? uid then {| id := id u; ssn := Some encrypted |} else u)
      table.

(** A string is falsy exactly when it is empty. *)
Definition truthy (s : jsstring) : bool :=
  match s with
  | [] => false
  | _ :: _ => true
  end.

(** [user.ssn && !user.ssn.includes(":")] *)
Definition unprotected (u : user) : bool :=
  match ssn u with
  | Some s => truthy s && negb (includes s colon)
  | None => false
  end.

(** The body of the [forEach] callback for the row object [u], with the
    exception it may let through and the world it leaves. *)
Definition visit (u : user) (w : world) : option js_error * world :=
  match ssn u with
  | Some s =>
      if truthy s && negb (includes s colon) then
        let (r, e') := encrypt s (rng w) in
        match r with
        | Throw err =>
            (Some err, {| users := users w; rng := e'; console := console w |})
        | Ok encrypted =>
            (None, {| users := update_run encrypted (id u) (users w);
                      rng := e';
                      console := console w ++ [LogEncrypted (id u)] |})
        end
      else (None, w)
  | None => (None, w)
  end.

(** [users.forEach(...)]: an exception ends the iteration. *)
Fixpoint forEach (us : list user) (w : world) : option js_error * world :=
  match us with
  | [] => (None, w)
  | u :: rest =>
      match visit u w with
      | (Some err, w') => (Some err, w')
      | (None, w') => forEach rest w'
      end
  end.

(** The command: the rows are read once, before the loop, and the loop
    goes over the row objects that were read. *)
Definition encrypt_ssns (w : world) : option js_error * world :=
  let w0 := log LogBanner w in
  match select_all (users w0) with
  | [] => (None, log LogNoUsers w0)
  | snapshot =>
      match forEach snapshot w0 with
      | (Some err, w') => (Some err, w')
      | (None, w') => (None, log LogAllEncrypted w')
      end
  end.

(** [n] runs of the command, one after the other. *)
Fixpoint sweeps (n : nat) (w : world) : world :=
  match n with
  | O => w
  | S n' => sweeps n' (snd (encrypt_ssns w))
  end.

(** What a run makes of a row: a row it takes for unprotected holds,
    under the same id, an envelope of its former value; any other row is
    as it was. *)
Definition converted (u u' : user) : Prop :=
  if unprotected u then
    id u' = id u /\
    exists s iv ct tag,
      ssn u = Some s /\ List.length iv = 12%nat /\
      gcm_cipher key iv (Utf8.encode s) = Ok (ct, tag) /\
      ssn u' = Some (envelope iv ct tag)
  else u' = u.

(** How many times the console reports an encryption for user [uid]. *)
Definition encryptions (uid : Z) (lines : list console_line) : nat :=
  List.length
    (filter (fun l => match l with LogEncrypted x => x =? uid | _ => false end)
            lines).

End Encryption.

(* ================================================================== *)
(** * The envelope, as the specification words it *)

(** A segment that is valid hex: digits only, an even number of them. *)
Definition valid_hex (s : jsstring) : bool :=
  forallb Hex.is_hex_digit s && Nat.even (List.length s).

(** Exactly three [":"]-delimited segments of valid hex. *)
Definition three_hex_segments (s : jsstring) : bool :=
  match split colon s with
  | [a; b; c] => valid_hex a && valid_hex b && valid_hex c
  | _ => false
  end.

(** The structural shape of an envelope: three segments of valid hex that
    decode to 12 bytes, any number of bytes, and 16 bytes. *)
Definition envelope_shape (s : jsstring) : bool :=
  match split colon s with
  | [a; b; c] =>
      valid_hex a && valid_hex b && valid_hex c
      && Nat.eqb (List.length a) 24 && Nat.eqb (List.length c) 32
  | _ => false
  end.

(* ================================================================== *)
(** * Tampering with a decoded envelope *)





(* ================================================================== *)
(** * The contract of the provider

    What the utility relies on from [node:crypto]'s AES-256-GCM, stated
    for one key [k]. *)

(** A key that is not 32 bytes long is refused when the cipher object is
    created. For encryption, where the nonce is 12 bytes long, the error
    is [RangeError: Invalid key length]; decryption throws as well, with
    an error that may depend on what else is wrong with its arguments. *)
Definition checks_key_length
    (cipher : list byte -> list byte -> list byte -> result (list byte * list byte))
    (decipher : list byte -> list byte -> list byte -> list byte -> result (list byte))
    (k : list byte) : Prop :=
  List.length k <> 32%nat ->
  (forall iv pt,
      List.length iv = 12%nat -> cipher k iv pt = Throw ERR_CRYPTO_INVALID_KEYLEN) /\
  (forall iv ct tag, exists err, decipher k iv ct tag = Throw err).

(** With a 32-byte key and a 12-byte nonce, encryption succeeds; the
    ciphertext is as long as the plaintext and the tag is 16 bytes. *)
Definition seals
    (cipher : list byte -> list byte -> list byte -> result (list byte * list byte))
    (k : list byte) : Prop :=
  forall iv pt,
    List.length k = 32%nat -> List.length iv = 12%nat ->
    exists ct tag,
      cipher k iv pt = Ok (ct, tag) /\
      List.length ct = List.length pt /\ List.length tag = 16%nat.

(** Decrypting what was encrypted, with the same nonce and the tag that
    came with it, gives the plaintext. *)
Definition opens
    (cipher : list byte -> list byte -> list byte -> result (list byte * list byte))
    (decipher : list byte -> list byte -> list byte -> list byte -> result (list byte))
    (k : list byte) : Prop :=
  forall iv pt ct tag,
    cipher k iv pt = Ok (ct, tag) -> decipher k iv ct tag = Ok pt.


(* ================================================================== *)
(** * A reference provider

    A small authenticated cipher with the interface of the provider: it
    rejects keys that are not 32 bytes long, masks the plaintext byte by
    byte, and authenticates key, nonce and ciphertext with a 16-byte tag.
    It shows that the contract assumed of the provider can be met, and
    serves to run the utility on concrete inputs. *)

Module Reference.

Definition total (bs : list byte) : Z :=
  fold_right (fun b acc => Bytes.to_Z b + acc) 0 bs.

Definition pad (key iv : list byte) : Z := total key + total iv.

Definition mask (p : Z) (bs : list byte) : list byte :=
  map (fun b => Bytes.of_Z (Bytes.to_Z b + p)) bs.

Definition unmask (p : Z) (bs : list byte) : list byte :=
  map (fun b => Bytes.of_Z (Bytes.to_Z b - p)) bs.

Definition tag_of (key iv ct : list byte) : list byte :=
  Bytes.of_Z (total key + total iv + total ct) :: repeat x00 15.

Fixpoint bytes_eqb (a b : list byte) : bool :=
  match a, b with
  | [], [] => true
  | x :: a', y :: b' => Bytes.eqb x y && bytes_eqb a' b'
  | _, _ => false
  end.

Definition cipher (key iv pt : list byte) : result (list byte * list byte) :=
  if Nat.eqb (List.length key) 32 then
    let ct := mask (pad key iv) pt in Ok (ct, tag_of key iv ct)
  else Throw ERR_CRYPTO_INVALID_KEYLEN.

Definition decipher (key iv ct tag : list byte) : result (list byte) :=
  if Nat.eqb (List.length key) 32 then
    if bytes_eqb tag (tag_of key iv ct) then Ok (unmask (pad key iv) ct)
    else Throw ERR_UNABLE_TO_AUTHENTICATE
  else Throw ERR_CRYPTO_INVALID_KEYLEN.

(** A random source for the examples: byte [n] of the tape is [n mod 256]. *)
Definition counting : entropy :=
  {| tape := fun n => Bytes.of_Z (Z.of_nat n); cursor := 0 |}.

End Reference.

(* ================================================================== *)
(** * Sample inputs *)

(** The envelope of the examples: [encrypt("123-45-6789")] with the
    fallback key, the reference provider and the counting random source. *)
Definition sample_envelope : jsstring :=
  Eval vm_compute in
    match fst (encrypt Reference.cipher None (js "123-45-6789") Reference.counting) with
    | Ok s => s
    | Throw _ => []
    end.

(** A string of text outside ASCII: U+1F600, U+00E9, U+4E2D. *)
Definition sample_text : jsstring := [0xD83D; 0xDE00; 0xE9; 0x4E2D].

(** [sample_envelope] with two units that are not hex digits at the end
    of its middle segment. *)
Definition sample_with_junk : jsstring :=
  Eval vm_compute in
    match split colon sample_envelope with
    | [a; b; c] => join colon [a; b ++ js "zz"; c]
    | _ => []
    end.

(** [sample_envelope] with U+0130 in place of every digit zero. *)
Definition sample_wide_digits : jsstring :=
  Eval vm_compute in map (fun c => if c =? 48 then 0x130 else c) sample_envelope.


(** An envelope with further units after the hex of each component. *)
Definition envelope_followed (iv ct tag : list byte) (j1 j2 j3 : jsstring) : jsstring :=
  join colon [Hex.encode iv ++ j1; Hex.encode ct ++ j2; Hex.encode tag ++ j3].

(** The random source after one call of [encrypt]. *)
Definition counting_next : entropy :=
  {| tape := tape Reference.counting; cursor := 12 |}.

(** Four legacy rows: a plain value, a value with a colon in it, a NULL
    and an empty string; and a row that already holds an envelope. *)
Definition legacy_world : world :=
  {| users := [ {| id := 1; ssn := Some (js "123-45-6789") |};
                {| id := 2; ssn := Some (js "12:34") |};
                {| id := 3; ssn := None |};
                {| id := 4; ssn := Some [] |};
                {| id := 5; ssn := Some sample_envelope |} ];
     rng := Reference.counting;
     console := [] |}.

(** Two rows whose ids are next to each other above [2 ^ 53]: a value
    with a colon in it, then a plain value. *)
Definition wide_ids_world : world :=
  {| users := [ {| id := 2 ^ 53; ssn := Some (js "12:34") |};
                {| id := 2 ^ 53 + 1; ssn := Some (js "123-45-6789") |} ];
     rng := Reference.counting;
     console := [] |}.

(* ================================================================== *)
(** * More of the utility: the alphabet of an envelope *)

(** A lower-case hex digit, as [toString("hex")] writes them. *)
Definition lower_hex_digit (c : Z) : bool :=
  ((48 <=? c) && (c <=? 57)) || ((97 <=? c) && (c <=? 102)).

(** A unit an envelope is made of: a lower-case hex digit or [":"]. *)
Definition envelope_unit (c : Z) : bool := lower_hex_digit c || (c =? colon).

(** A string with its hex letters [a] to [f] in upper case; every other
    unit stays. On an envelope this is what [toUpperCase()] returns. *)
Definition upper_hex (s : jsstring) : jsstring :=
  map (fun c => if (97 <=? c) && (c <=? 102) then c - 32 else c) s.

(** [s.toWellFormed()]: the string with every surrogate that is not part
    of a high-low pair replaced by U+FFFD. *)
Fixpoint toWellFormed (s : jsstring) : jsstring :=
  match s with
  | [] => []
  | c :: rest =>
      if Utf8.is_high_surrogate c then
        match rest with
        | d :: rest' =>
            if Utf8.is_low_surrogate d then c :: d :: toWellFormed rest'
            else Utf8.replacement :: toWellFormed rest
        | [] => [Utf8.replacement]
        end
      else if Utf8.is_low_surrogate c then Utf8.replacement :: toWellFormed rest
      else c :: toWellFormed rest
  end.

(** A key string of two characters, [k] and U+00E9. *)
Definition accented_key : jsstring := [0x6B; 0xE9].

(** A row after some runs of the sweep: the same id, and either the same
    value or a value with a [":"] in it. *)
Definition kept (u u' : user) : Prop :=
  id u' = id u /\
  (u' = u \/ exists enc, ssn u' = Some enc /\ includes enc colon = true).

(* ================================================================== *)
(** * The password rules of [app/signup/page.tsx] and [server/routers/auth.ts] *)

Module Password.

(** [/\d/], [/[A-Z]/], [/[a-z]/]: classes of one code unit. *)
Definition digit (c : Z) : bool := (48 <=? c) && (c <=? 57).
Definition upper (c : Z) : bool := (65 <=? c) && (c <=? 90).
Definition lower (c : Z) : bool := (97 <=? c) && (c <=? 122).

(** The twenty units of the symbol class of the last rule, in its order;
    34 is the double quote. *)
Definition symbols : jsstring := js "!@#$%^&*(),.?" ++ 34 :: js ":{}|<>".

Definition symbol (c : Z) : bool := existsb (Z.eqb c) symbols.

(** [/[...]/.test(value)] for a class of one unit: some unit of the value
    is in the class. *)
Definition test (class : Z -> bool) (value : jsstring) : bool :=
  existsb class value.

Definition hasNumber (value : jsstring) : bool := test digit value.
Definition hasUpper (value : jsstring) : bool := test upper value.
Definition hasLower (value : jsstring) : bool := test lower value.
Definition hasSymbol (value : jsstring) : bool := test symbol value.

(** [a === b] on strings. *)
Fixpoint string_eqb (a b : jsstring) : bool :=
  match a, b with
  | [], [] => true
  | x :: a', y :: b' => (x =? y) && string_eqb a' b'
  | _, _ => false
  end.

Definition commonPasswords : list jsstring :=
  [js "password"; js "12345678"; js "qwerty"].

(** [!commonPasswords.includes(value.toLowerCase())]; [toLowerCase] is
    the runtime's. *)
Definition notCommon (toLowerCase : jsstring -> jsstring) (value : jsstring) : bool :=
  negb (existsb (string_eqb (toLowerCase value)) commonPasswords).

(** The form field accepts a value when [required], [minLength] and every
    [validate] function pass. *)
Definition form_accepts (toLowerCase : jsstring -> jsstring) (value : jsstring) : bool :=
  truthy value
  && Nat.leb 8 (List.length value)
  && notCommon toLowerCase value
  && hasNumber value && hasUpper value && hasLower value && hasSymbol value.

(** [z.string().min(8).refine(...)...]: the schema accepts a string when
    [min] and every refinement pass. *)
Definition schema_accepts (value : jsstring) : bool :=
  Nat.leb 8 (List.length value)
  && hasNumber value && hasUpper value && hasLower value && hasSymbol value.

(** Lower case for ASCII letters only: an instance of [toLowerCase] for
    the examples. *)
Definition ascii_lower (s : jsstring) : jsstring :=
  map (fun c => if upper c then c + 32 else c) s.

End Password.

(* ================================================================== *)
(** * The age rule of the [dateOfBirth] field *)

Module DateOfBirth.

(** What the getters of a [Date] return: the year, the month from 0 and
    the day of the month, in local time. *)
Record calendar := {
  getFullYear : Z;
  getMonth : Z;
  getDate : Z
}.

(** [const age = now.getFullYear() - birth.getFullYear() - (... ? 1 : 0)] *)
Definition age (now birth : calendar) : Z :=
  getFullYear now - getFullYear birth
  - (if (getMonth now <? getMonth birth)
        || ((getMonth now =? getMonth birth) && (getDate now <? getDate birth))
     then 1 else 0).

(** The refinement, with [birth = None] for a string [new Date] cannot
    read: every getter is then [NaN], so is [age], and [NaN >= 18] is
    false. *)
Definition isAdult (now : calendar) (birth : option calendar) : bool :=
  match birth with
  | Some b => 18 <=? age now b
  | None => false
  end.

(** A day that is [b] or comes before it. *)
Definition on_or_before (a b : calendar) : Prop :=
  getFullYear a < getFullYear b \/
  (getFullYear a = getFullYear b /\
   (getMonth a < getMonth b \/
    (getMonth a = getMonth b /\ getDate a <= getDate b))).

(** The same month and day, [n] years later. *)
Definition years_later (n : Z) (d : calendar) : calendar :=
  {| getFullYear := getFullYear d + n; getMonth := getMonth d; getDate := getDate d |}.

End DateOfBirth.

(* ================================================================== *)
(** * The transaction list of [server/routers/account.ts] *)

Module Account.

Record account := {
  account_id : Z;
  userId : Z;
  accountType : jsstring
}.

(** What the handler has when the loop is done: the array, or the
    [NOT_FOUND] error it threw. *)
Inductive outcome (A : Type) : Type :=
| Built (a : A)
| NOT_FOUND.
Arguments Built {A} a.
Arguments NOT_FOUND {A}.

Section Handler.

(** A row of [transactions]; of its columns only [accountId] is read. *)
Variable transaction : Type.
Variable accountId : transaction -> Z.

(** [db.select().from(accounts).where(eq(accounts.id, x)).get()] *)
Definition account_by_id (accounts : list account) (x : Z) : option account :=
  find (fun a => account_id a =? x) accounts.

(** [....where(and(eq(accounts.id, x), eq(accounts.userId, uid))).get()] *)
Definition own_account (accounts : list account) (x uid : Z) : option account :=
  find (fun a => (account_id a =? x) && (userId a =? uid)) accounts.

(** [db.select().from(transactions).where(eq(transactions.accountId, x))] *)
Definition of_account (transactions : list transaction) (x : Z) : list transaction :=
  filter (fun t => accountId t =? x) transactions.

(** The loop as it was: one query per transaction;
    [accountDetails?.accountType] is [undefined] when no row is found. *)
Definition enrich_by_query (accounts : list account) (rows : list transaction)
  : list (transaction * option jsstring) :=
  map (fun t => (t, option_map accountType (account_by_id accounts (accountId t))))
      rows.

(** The loop as it is: the account already read. *)
Definition enrich (a : account) (rows : list transaction)
  : list (transaction * option jsstring) :=
  map (fun t => (t, Some (accountType a))) rows.

(** The handler up to the end of the loop, before and after the change. *)
Definition enriched_before (accounts : list account) (transactions : list transaction)
    (input_accountId user_id : Z) : outcome (list (transaction * option jsstring)) :=
  match own_account accounts input_accountId user_id with
  | None => NOT_FOUND
  | Some _ => Built (enrich_by_query accounts (of_account transactions input_accountId))
  end.

Definition enriched_after (accounts : list account) (transactions : list transaction)
    (input_accountId user_id : Z) : outcome (list (transaction * option jsstring)) :=
  match own_account accounts input_accountId user_id with
  | None => NOT_FOUND
  | Some a => Built (enrich a (of_account transactions input_accountId))
  end.

End Handler.

Arguments of_account {transaction} accountId transactions x.
Arguments enrich_by_query {transaction} accountId accounts rows.
Arguments enrich {transaction} a rows.
Arguments enriched_before {transaction} accountId accounts transactions input_accountId user_id.
Arguments enriched_after {transaction} accountId accounts transactions input_accountId user_id.

End Account.

(* ================================================================== *)
(** * The connection of [lib/db/index.ts] *)

Module Db.

(** A connection is named by the number of connections opened before it. *)
Definition connection := nat.

(** What outlives a module instance: [globalThis._sqlite] and the
    connections opened so far. *)
Record runtime := {
  _sqlite : option connection;
  opened : nat
}.

Definition fresh : runtime := {| _sqlite := None; opened := 0 |}.

(** [new Database(dbPath)] *)
Definition new_Database (r : runtime) : connection * runtime :=
  (opened r, {| _sqlite := _sqlite r; opened := S (opened r) |}).

(** What the process does with the module: evaluate it, or call the
    [initDb] of an instance. *)
Inductive step : Type := Evaluate | InitDb.

(** The module as it was: [const sqlite = new Database(dbPath)] at each
    evaluation, [const conn = new Database(dbPath)] at each [initDb]. The
    result is the connection [db] is built on, if the step builds one. *)
Definition leaky (s : step) (r : runtime) : option connection * runtime :=
  match s with
  | Evaluate => let (c, r') := new_Database r in (Some c, r')
  | InitDb => let (_, r') := new_Database r in (None, r')
  end.

(** The module as it is: [if (!globalThis._sqlite) globalThis._sqlite =
    new Database(dbPath)]; [initDb] opens nothing. *)
Definition shared (s : step) (r : runtime) : option connection * runtime :=
  match s with
  | Evaluate =>
      match _sqlite r with
      | Some c => (Some c, r)
      | None =>
          let (c, r') := new_Database r in
          (Some c, {| _sqlite := Some c; opened := opened r' |})
      end
  | InitDb => (None, r)
  end.

(** A sequence of steps: the connections the evaluations exported, and
    the runtime at the end. *)
Fixpoint run (f : step -> runtime -> option connection * runtime)
    (steps : list step) (r : runtime) : list connection * runtime :=
  match steps with
  | [] => ([], r)
  | s :: rest =>
      let (c, r') := f s r in
      let (cs, r'') := run f rest r' in
      (match c with Some x => x :: cs | None => cs end, r'')
  end.

(** How many of the steps are evaluations of the module. *)
Definition evaluations (steps : list step) : nat :=
  List.length
    (filter (fun s => match s with Evaluate => true | InitDb => false end) steps).

End Db.

(* ================================================================== *)
(** * Facts about bytes *)

Module BytesFacts.
Import Bytes.

Lemma to_Z_range (b : byte) : 0 <= to_Z b < 256.
Proof.
  unfold to_Z. pose proof (Byte.to_N_bounded b) as H.
  lia.
Qed.

Lemma of_to_Z (b : byte) : of_Z (to_Z b) = b.
Proof.
  unfold of_Z. rewrite Z.mod_small by apply to_Z_range.
  unfold to_Z. rewrite N2Z.id, Byte.of_to_N. reflexivity.
Qed.

Lemma to_of_Z (z : Z) : 0 <= z < 256 -> to_Z (of_Z z) = z.
Proof.
  intros Hz. unfold of_Z, to_Z. rewrite Z.mod_small by assumption.
  destruct (Byte.of_N (Z.to_N z)) as [b|] eqn:E.
  - apply Byte.to_of_N in E. rewrite E. lia.
  - apply Byte.of_N_None_iff in E. lia.
Qed.

Lemma to_of_Z_mod (z : Z) : to_Z (of_Z z) = z mod 256.
Proof.
  assert (H : of_Z z = of_Z (z mod 256)).
  { unfold of_Z. rewrite Z.mod_mod by lia. reflexivity. }
  rewrite H. apply to_of_Z. apply Z.mod_pos_bound. lia.
Qed.

Lemma to_Z_inj (a b : byte) : to_Z a = to_Z b -> a = b.
Proof.
  intros H. rewrite <- (of_to_Z a), <- (of_to_Z b), H. reflexivity.
Qed.

Lemma map_of_to_Z (bs : list byte) : map of_Z (map to_Z bs) = bs.
Proof.
  induction bs as [|b bs IH]; simpl; [reflexivity|].
  rewrite of_to_Z, IH. reflexivity.
Qed.

Lemma map_to_of_Z (zs : list Z) :
  Forall (fun z => 0 <= z < 256) zs -> map to_Z (map of_Z zs) = zs.
Proof.
  induction 1 as [|z zs Hz _ IH]; simpl; [reflexivity|].
  rewrite to_of_Z by assumption. rewrite IH. reflexivity.
Qed.

Lemma eqb_eq (a b : byte) : Bytes.eqb a b = true <-> a = b.
Proof.
  unfold Bytes.eqb. split.
  - apply Byte.byte_dec_bl.
  - apply Byte.byte_dec_lb.
Qed.


End BytesFacts.

(* ================================================================== *)
(** * Facts about [split] and [join] *)

Lemma split_nonempty (sep : Z) (s : jsstring) : split sep s <> [].
Proof.
  destruct s as [|c rest]; simpl; [discriminate|].
  destruct (c =? sep); [discriminate|].
  destruct (split sep rest); discriminate.
Qed.

Lemma split_plain (sep : Z) (s : jsstring) :
  includes s sep = false -> split sep s = [s].
Proof.
  unfold includes. induction s as [|c rest IH]; simpl; [reflexivity|].
  intros H. apply orb_false_iff in H. destruct H as [Hc Hrest].
  rewrite Z.eqb_sym, Hc, (IH Hrest). reflexivity.
Qed.

Lemma split_app (sep : Z) (a rest : jsstring) :
  includes a sep = false ->
  split sep (a ++ sep :: rest) = a :: split sep rest.
Proof.
  unfold includes. induction a as [|c a IH]; simpl; intros H.
  - rewrite Z.eqb_refl. reflexivity.
  - apply orb_false_iff in H. destruct H as [Hc Ha].
    rewrite Z.eqb_sym, Hc, (IH Ha). reflexivity.
Qed.

Lemma split_join3 (sep : Z) (a b c : jsstring) :
  includes a sep = false -> includes b sep = false -> includes c sep = false ->
  split sep (join sep [a; b; c]) = [a; b; c].
Proof.
  intros Ha Hb Hc. simpl.
  rewrite (split_app _ _ _ Ha), (split_app _ _ _ Hb), (split_plain _ _ Hc).
  reflexivity.
Qed.

Lemma includes_app (a b : jsstring) (c : Z) :
  includes (a ++ b) c = includes a c || includes b c.
Proof. unfold includes. apply existsb_app. Qed.

(** A string without the separator is a single segment, and conversely. *)
Lemma split_single (sep : Z) (s : jsstring) :
  includes s sep = true -> exists a b rest, split sep s = a :: b :: rest.
Proof.
  unfold includes. induction s as [|c s IH]; simpl; [discriminate|].
  intros H. destruct (c =? sep) eqn:E.
  - pose proof (split_nonempty sep s) as Hne.
    destruct (split sep s) as [|x xs]; [contradiction|].
    exists [], x, xs. reflexivity.
  - rewrite Z.eqb_sym, E in H. simpl in H.
    destruct (IH H) as (a & b & rest & Hs). rewrite Hs.
    exists (c :: a), b, rest. reflexivity.
Qed.

(** The segments are one more than the separators. *)
Lemma split_length (sep : Z) (s : jsstring) :
  List.length (split sep s) = S (occurrences sep s).
Proof.
  unfold occurrences. induction s as [|c rest IH]; [reflexivity|].
  cbn [split filter]. rewrite (Z.eqb_sym sep c).
  destruct (c =? sep); cbn [List.length]; [rewrite IH; reflexivity|].
  pose proof (split_nonempty sep rest) as Hne.
  destruct (split sep rest) as [|seg segs]; [contradiction|]. exact IH.
Qed.

Lemma split_map (f : Z -> Z) (sep : Z) (s : jsstring) :
  (forall c, (f c =? sep) = (c =? sep)) ->
  split sep (map f s) = map (map f) (split sep s).
Proof.
  intros Hf. induction s as [|c rest IH]; [reflexivity|].
  cbn [map split]. rewrite Hf, IH.
  destruct (c =? sep); [reflexivity|].
  pose proof (split_nonempty sep rest) as Hne.
  destruct (split sep rest) as [|seg segs]; [contradiction|]. reflexivity.
Qed.

(* ================================================================== *)
(** * Facts about the hex encoding *)

Module HexFacts.

Lemma digit_range (n : Z) : 0 <= n < 16 -> 0 <= Hex.digit n < 256.
Proof. intros Hn. unfold Hex.digit. destruct (Z.ltb_spec n 10); lia. Qed.

(** Below 256 the decoder reads a unit as it stands. *)
Lemma unhex_low (c : Z) : 0 <= c < 256 -> Hex.unhex c = Hex.digit_value c.
Proof. intros Hc. unfold Hex.unhex. rewrite Z.mod_small by exact Hc. reflexivity. Qed.

Lemma digit_value_digit (n : Z) :
  0 <= n < 16 -> Hex.digit_value (Hex.digit n) = Some n.
Proof.
  intros Hn. unfold Hex.digit, Hex.digit_value.
  destruct (Z.ltb_spec n 10).
  - replace ((48 <=? 48 + n) && (48 + n <=? 57)) with true
      by (symmetry; apply andb_true_iff; split; apply Z.leb_le; lia).
    f_equal. lia.
  - replace ((48 <=? 87 + n) && (87 + n <=? 57)) with false
      by (symmetry; apply andb_false_iff; right; apply Z.leb_gt; lia).
    replace ((97 <=? 87 + n) && (87 + n <=? 102)) with true
      by (symmetry; apply andb_true_iff; split; apply Z.leb_le; lia).
    f_equal. lia.
Qed.

Lemma digit_unhex (n : Z) : 0 <= n < 16 -> Hex.unhex (Hex.digit n) = Some n.
Proof.
  intros Hn. rewrite (unhex_low _ (digit_range _ Hn)).
  apply digit_value_digit, Hn.
Qed.

Lemma digit_not_colon (n : Z) : 0 <= n < 16 -> (colon =? Hex.digit n) = false.
Proof.
  intros Hn. unfold Hex.digit, colon. apply Z.eqb_neq.
  destruct (Z.ltb_spec n 10); lia.
Qed.

Lemma nibbles (b : byte) :
  0 <= Bytes.to_Z b / 16 < 16 /\ 0 <= Bytes.to_Z b mod 16 < 16 /\
  16 * (Bytes.to_Z b / 16) + Bytes.to_Z b mod 16 = Bytes.to_Z b.
Proof.
  pose proof (BytesFacts.to_Z_range b). Z.div_mod_to_equations. lia.
Qed.

(** Decoding what [toString("hex")] wrote gives the bytes back. *)
Lemma decode_encode (bs : list byte) : Hex.decode (Hex.encode bs) = bs.
Proof.
  induction bs as [|b bs IH]; [reflexivity|].
  destruct (nibbles b) as (Hhi & Hlo & Hsum).
  cbn [Hex.encode Hex.decode].
  rewrite (digit_unhex _ Hhi), (digit_unhex _ Hlo), Hsum, BytesFacts.of_to_Z, IH.
  reflexivity.
Qed.

Lemma encode_no_colon (bs : list byte) : includes (Hex.encode bs) colon = false.
Proof.
  unfold includes. induction bs as [|b bs IH]; [reflexivity|].
  destruct (nibbles b) as (Hhi & Hlo & _).
  cbn [Hex.encode existsb].
  rewrite (digit_not_colon _ Hhi), (digit_not_colon _ Hlo), IH. reflexivity.
Qed.

Lemma encode_length (bs : list byte) :
  List.length (Hex.encode bs) = (2 * List.length bs)%nat.
Proof. induction bs as [|b bs IH]; simpl; [reflexivity|]. rewrite IH. lia. Qed.

Lemma encode_valid (bs : list byte) : valid_hex (Hex.encode bs) = true.
Proof.
  unfold valid_hex. apply andb_true_iff. split.
  - induction bs as [|b bs IH]; [reflexivity|].
    destruct (nibbles b) as (Hhi & Hlo & _).
    cbn [Hex.encode forallb]. unfold Hex.is_hex_digit at 1 2.
    rewrite (digit_value_digit _ Hhi), (digit_value_digit _ Hlo), IH. reflexivity.
  - rewrite encode_length. rewrite Nat.even_mul. reflexivity.
Qed.

(** Decoding goes through the hex that was written and on into what
    follows it. *)
Lemma decode_app (bs : list byte) (rest : jsstring) :
  Hex.decode (Hex.encode bs ++ rest) = bs ++ Hex.decode rest.
Proof.
  induction bs as [|b bs IH]; [reflexivity|].
  destruct (nibbles b) as (Hhi & Hlo & Hsum).
  cbn [Hex.encode Hex.decode app].
  rewrite (digit_unhex _ Hhi), (digit_unhex _ Hlo), Hsum, BytesFacts.of_to_Z, IH.
  reflexivity.
Qed.

(** Only the low byte of a unit matters to the decoder. *)
Lemma decode_low_bytes (f : Z -> Z) (s : jsstring) :
  (forall c, f c mod 256 = c mod 256) ->
  Hex.decode (map f s) = Hex.decode s.
Proof.
  intros Hf.
  assert (Hu : forall c, Hex.unhex (f c) = Hex.unhex c)
    by (intros c; unfold Hex.unhex; rewrite Hf; reflexivity).
  enough (H : Hex.decode (map f s) = Hex.decode s /\
              forall c, Hex.decode (map f (c :: s)) = Hex.decode (c :: s))
    by apply H.
  induction s as [|d s [IH1 IH2]]; [split; reflexivity|].
  split; [apply IH2|].
  intros c. cbn [map Hex.decode]. rewrite !Hu, IH1. reflexivity.
Qed.

Lemma encode_inj (a b : list byte) : Hex.encode a = Hex.encode b -> a = b.
Proof.
  intros H. rewrite <- (decode_encode a), <- (decode_encode b), H. reflexivity.
Qed.

End HexFacts.

(** The segments of an envelope are the three hex strings it was joined
    from. *)
Lemma split_envelope (iv ct tag : list byte) :
  split colon (envelope iv ct tag) = [Hex.encode iv; Hex.encode ct; Hex.encode tag].
Proof. apply split_join3; apply HexFacts.encode_no_colon. Qed.

Lemma envelope_includes_colon (iv ct tag : list byte) :
  includes (envelope iv ct tag) colon = true.
Proof.
  unfold envelope. cbn [join]. rewrite includes_app.
  apply orb_true_iff. right. unfold includes. cbn [existsb].
  rewrite Z.eqb_refl. reflexivity.
Qed.

Lemma envelope_inj (iv ct tag iv' ct' tag' : list byte) :
  envelope iv ct tag = envelope iv' ct' tag' -> iv = iv' /\ ct = ct' /\ tag = tag'.
Proof.
  intros H. apply (f_equal (split colon)) in H.
  rewrite !split_envelope in H. injection H as H1 H2 H3.
  auto using HexFacts.encode_inj.
Qed.

(* ================================================================== *)
(** * Facts about the UTF-8 encoding *)

Module Utf8Facts.
Import Utf8.

(** Settles the comparisons of a goal by linear arithmetic. *)
Ltac ztest :=
  match goal with
  | |- context [Z.leb ?a ?b] =>
      first [ rewrite (proj2 (Z.leb_le a b)) by lia
            | rewrite (proj2 (Z.leb_gt a b)) by lia ]
  | |- context [Z.ltb ?a ?b] =>
      first [ rewrite (proj2 (Z.ltb_lt a b)) by lia
            | rewrite (proj2 (Z.ltb_ge a b)) by lia ]
  | |- context [Z.eqb ?a ?b] =>
      first [ rewrite (proj2 (Z.eqb_eq a b)) by lia
            | rewrite (proj2 (Z.eqb_neq a b)) by lia ]
  end.

Ltac ztests :=
  repeat (ztest;
          cbn [andb orb negb app fst snd code_point bytes_needed bytes_seen
               lower_boundary upper_boundary]).

Lemma run_cons (st : state) (b : Z) (bs : list Z) :
  run st (b :: bs) = let (st', out) := step st b in out ++ run st' bs.
Proof. reflexivity. Qed.

(** Reads the next byte of the input. *)
Ltac read_byte := rewrite run_cons; unfold step, lead; ztests.

(** The decoder reads the bytes of one scalar value and is back in its
    initial state. *)
Lemma run_code_point (cp : Z) (rest : list Z) :
  scalar cp ->
  run initial (encode_code_point cp ++ rest) = emit cp ++ run initial rest.
Proof.
  intros [Hr Hs]. unfold encode_code_point.
  destruct (Z.ltb_spec cp 0x80) as [H1|H1];
    [|destruct (Z.ltb_spec cp 0x800) as [H2|H2];
      [|destruct (Z.ltb_spec cp 0x10000) as [H3|H3]]].
  - cbn [app]. unfold initial, emit. read_byte. reflexivity.
  - assert (Hd : cp = 64 * (cp / 64) + cp mod 64 /\
                 2 <= cp / 64 < 32 /\ 0 <= cp mod 64 < 64)
      by (Z.div_mod_to_equations; lia).
    set (q := cp / 64) in *. set (r := cp mod 64) in *.
    cbn [app]. unfold initial. do 2 read_byte.
    match goal with |- context [emit ?e] => replace e with cp by lia end.
    reflexivity.
  - assert (Hd : cp = 4096 * (cp / 4096) + 64 * ((cp / 64) mod 64) + cp mod 64 /\
                 0 <= cp / 4096 < 16 /\ 0 <= (cp / 64) mod 64 < 64 /\
                 0 <= cp mod 64 < 64)
      by (Z.div_mod_to_equations; lia).
    set (a := cp / 4096) in *. set (b := (cp / 64) mod 64) in *.
    set (c := cp mod 64) in *.
    cbn [app]. unfold initial.
    destruct (Z.eq_dec a 0); [|destruct (Z.eq_dec a 13)]; do 3 read_byte;
      match goal with |- context [emit ?e] => replace e with cp by lia end;
      reflexivity.
  - assert (Hd : cp = 262144 * (cp / 262144) + 4096 * ((cp / 4096) mod 64)
                      + 64 * ((cp / 64) mod 64) + cp mod 64 /\
                 0 <= cp / 262144 < 5 /\ 0 <= (cp / 4096) mod 64 < 64 /\
                 0 <= (cp / 64) mod 64 < 64 /\ 0 <= cp mod 64 < 64)
      by (Z.div_mod_to_equations; lia).
    set (a := cp / 262144) in *. set (b := (cp / 4096) mod 64) in *.
    set (c := (cp / 64) mod 64) in *. set (d := cp mod 64) in *.
    cbn [app]. unfold initial.
    destruct (Z.eq_dec a 0); [|destruct (Z.eq_dec a 4)]; do 4 read_byte;
      match goal with |- context [emit ?e] => replace e with cp by lia end;
      reflexivity.
Qed.

Lemma emit_bmp (c : Z) : c < 0x10000 -> emit c = [c].
Proof. intros H. unfold emit. ztests. reflexivity. Qed.

Lemma surrogates (c d : Z) :
  is_high_surrogate c = true -> is_low_surrogate d = true ->
  scalar (pair_code_point c d) /\ emit (pair_code_point c d) = [c; d].
Proof.
  unfold is_high_surrogate, is_low_surrogate, pair_code_point, scalar.
  intros Hc Hd.
  apply andb_true_iff in Hc. apply andb_true_iff in Hd.
  rewrite !Z.leb_le in Hc, Hd. split; [lia|].
  unfold emit. ztests.
  f_equal; [|f_equal]; Z.div_mod_to_equations; lia.
Qed.

Lemma not_surrogate (c : Z) :
  code_unit c -> is_high_surrogate c = false -> is_low_surrogate c = false ->
  scalar c.
Proof.
  unfold code_unit, is_high_surrogate, is_low_surrogate, scalar.
  intros Hc Hh Hl.
  apply andb_false_iff in Hh. apply andb_false_iff in Hl.
  rewrite !Z.leb_gt in Hh, Hl. lia.
Qed.

(** Strings are taken apart one or two units at a time. *)
Lemma units_ind (P : jsstring -> Prop) :
  P [] ->
  (forall c rest, P rest -> (forall d rest', rest = d :: rest' -> P rest') ->
                  P (c :: rest)) ->
  forall s, P s.
Proof.
  intros Hnil Hcons s.
  assert (H : P s /\ (forall d rest', s = d :: rest' -> P rest')).
  { induction s as [|c s [IH1 IH2]].
    - split; [exact Hnil|]. intros d rest' E. discriminate E.
    - split.
      + apply Hcons; assumption.
      + intros d rest' E. injection E as _ E. subst rest'. exact IH1. }
  exact (proj1 H).
Qed.

(** Text without a lone surrogate is read back as it was written. *)
Lemma run_encode_units (s : jsstring) :
  Forall code_unit s -> isWellFormed s = true ->
  run initial (encode_units s) = s.
Proof.
  induction s as [|c rest IH1 IH2] using units_ind; [reflexivity|].
  intros Hu Hw. inversion Hu as [|? ? Hc Hrest]; subst.
  cbn [encode_units isWellFormed] in *.
  destruct (is_high_surrogate c) eqn:Hh.
  - destruct rest as [|d rest']; [discriminate|].
    apply andb_true_iff in Hw. destruct Hw as [Hd Hw]. rewrite Hd.
    destruct (surrogates c d Hh Hd) as [Hs He].
    rewrite (run_code_point _ _ Hs), He.
    inversion Hrest; subst.
    rewrite (IH2 d rest' eq_refl) by assumption. reflexivity.
  - apply andb_true_iff in Hw. destruct Hw as [Hl Hw].
    apply negb_true_iff in Hl. rewrite Hl.
    rewrite (run_code_point _ _ (not_surrogate c Hc Hh Hl)).
    rewrite emit_bmp by (unfold code_unit in Hc; lia).
    rewrite (IH1 Hrest Hw). reflexivity.
Qed.

Lemma encode_code_point_octets (cp : Z) :
  0 <= cp < 0x110000 -> Forall octet (encode_code_point cp).
Proof.
  intros H. unfold encode_code_point, octet.
  destruct (cp <? 128) eqn:E1; [|destruct (cp <? 2048) eqn:E2;
    [|destruct (cp <? 65536) eqn:E3]];
    rewrite ?Z.ltb_lt, ?Z.ltb_ge in *;
    repeat constructor; Z.div_mod_to_equations; lia.
Qed.

(** The encoder writes bytes, whatever the string. *)
Lemma encode_units_octets (s : jsstring) :
  Forall code_unit s -> Forall octet (encode_units s).
Proof.
  assert (Hrep : Forall octet (encode_code_point replacement))
    by (apply encode_code_point_octets; unfold replacement; lia).
  induction s as [|c rest IH1 IH2] using units_ind; [constructor|].
  intros Hu. inversion Hu as [|? ? Hc Hrest]; subst.
  cbn [encode_units].
  destruct (is_high_surrogate c) eqn:Hh.
  - destruct rest as [|d rest']; [exact Hrep|].
    destruct (is_low_surrogate d) eqn:Hd.
    + apply Forall_app. split.
      * apply encode_code_point_octets.
        destruct (surrogates c d Hh Hd) as [[Hs _] _]. exact Hs.
      * inversion Hrest; subst. apply (IH2 d rest' eq_refl). assumption.
    + apply Forall_app. split; [exact Hrep|]. apply IH1. assumption.
  - destruct (is_low_surrogate c) eqn:Hl.
    + apply Forall_app. split; [exact Hrep|]. apply IH1. assumption.
    + apply Forall_app. split; [|apply IH1; assumption].
      apply encode_code_point_octets. unfold code_unit in Hc. lia.
Qed.

(** [Buffer.from(s, "utf8").toString("utf8")] is [s] for well-formed [s]. *)
Lemma decode_encode_text (s : jsstring) :
  Forall code_unit s -> isWellFormed s = true ->
  decode (encode s) = s.
Proof.
  intros Hu Hw. unfold decode, encode.
  rewrite BytesFacts.map_to_of_Z by (apply encode_units_octets; exact Hu).
  apply run_encode_units; assumption.
Qed.

End Utf8Facts.

(* ================================================================== *)
(** * The reference provider meets the contract *)

Module ReferenceFacts.
Import Reference.

Lemma bytes_eqb_refl (a : list byte) : bytes_eqb a a = true.
Proof.
  induction a as [|x a IH]; [reflexivity|]. cbn [bytes_eqb].
  rewrite IH, (proj2 (BytesFacts.eqb_eq x x) eq_refl). reflexivity.
Qed.

Lemma bytes_eqb_eq (a b : list byte) : bytes_eqb a b = true -> a = b.
Proof.
  revert b. induction a as [|x a IH]; intros [|y b] H; try discriminate H.
  - reflexivity.
  - cbn [bytes_eqb] in H. apply andb_true_iff in H. destruct H as [Hx Ha].
    apply BytesFacts.eqb_eq in Hx. rewrite Hx, (IH b Ha). reflexivity.
Qed.

Lemma unmask_mask (p : Z) (bs : list byte) : unmask p (mask p bs) = bs.
Proof.
  unfold unmask, mask. rewrite map_map.
  induction bs as [|b bs IH]; [reflexivity|]. cbn [map]. rewrite IH. f_equal.
  apply BytesFacts.to_Z_inj. rewrite !BytesFacts.to_of_Z_mod.
  pose proof (BytesFacts.to_Z_range b).
  rewrite Zminus_mod_idemp_l.
  replace (Bytes.to_Z b + p - p) with (Bytes.to_Z b) by lia.
  apply Z.mod_small. assumption.
Qed.

Lemma mask_length (p : Z) (bs : list byte) : List.length (mask p bs) = List.length bs.
Proof. apply length_map. Qed.

Lemma tag_of_length (k iv ct : list byte) : List.length (tag_of k iv ct) = 16%nat.
Proof. reflexivity. Qed.

Lemma meets_key_length (k : list byte) : checks_key_length cipher decipher k.
Proof.
  intros Hk. apply Nat.eqb_neq in Hk. unfold cipher, decipher.
  rewrite Hk. split; [reflexivity|]. intros iv ct tag. eexists. reflexivity.
Qed.

Lemma meets_seals (k : list byte) : seals cipher k.
Proof.
  intros iv pt Hk _. unfold cipher. rewrite Hk, Nat.eqb_refl.
  eexists. eexists. split; [reflexivity|].
  split; [apply mask_length|apply tag_of_length].
Qed.

Lemma meets_opens (k : list byte) : opens cipher decipher k.
Proof.
  intros iv pt ct tag H. unfold cipher, decipher in *.
  destruct (Nat.eqb (List.length k) 32); [|discriminate H].
  injection H as Hct Htag. subst ct tag.
  rewrite bytes_eqb_refl, unmask_mask. reflexivity.
Qed.






End ReferenceFacts.

(* ================================================================== *)
(** * Properties of [encrypt] and [decrypt] *)

Section EncryptionProperties.

Variable gcm_cipher :
  list byte -> list byte -> list byte -> result (list byte * list byte).
Variable gcm_decipher :
  list byte -> list byte -> list byte -> list byte -> result (list byte).
Variable ENCRYPTION_KEY : option jsstring.

Lemma nonce_length (e : entropy) : List.length (nonce e) = 12%nat.
Proof.
  unfold nonce, randomBytes. cbn [fst].
  rewrite length_map, length_seq. reflexivity.
Qed.

(** [encrypt] returns the envelope of what the provider returns. *)
Lemma encrypt_envelope (plain : jsstring) (e : entropy) (ct tag : list byte) :
  gcm_cipher (key ENCRYPTION_KEY) (nonce e) (Utf8.encode plain) = Ok (ct, tag) ->
  encrypt gcm_cipher ENCRYPTION_KEY plain e =
  (Ok (envelope (nonce e) ct tag), snd (randomBytes 12 e)).
Proof.
  intros H. unfold encrypt, nonce in *. destruct (randomBytes 12 e) as [iv e'].
  cbn [fst snd] in *. rewrite H. reflexivity.
Qed.

Lemma encrypt_inv (plain : jsstring) (e : entropy) (s : jsstring) :
  fst (encrypt gcm_cipher ENCRYPTION_KEY plain e) = Ok s ->
  exists ct tag,
    gcm_cipher (key ENCRYPTION_KEY) (nonce e) (Utf8.encode plain) = Ok (ct, tag) /\
    s = envelope (nonce e) ct tag.
Proof.
  unfold encrypt, nonce. destruct (randomBytes 12 e) as [iv e']. cbn [fst].
  destruct (gcm_cipher _ _ _) as [[ct tag]|err]; cbn [fst]; intros H.
  - exists ct, tag. split; [reflexivity|]. injection H as H. symmetry. exact H.
  - discriminate H.
Qed.

(** [decrypt] on an envelope hands its three components to the provider. *)
Lemma decrypt_envelope (iv ct tag : list byte) :
  decrypt gcm_decipher ENCRYPTION_KEY (envelope iv ct tag) =
  let* decrypted := gcm_decipher (key ENCRYPTION_KEY) iv ct tag in
  Ok (Utf8.decode decrypted).
Proof.
  unfold decrypt. rewrite split_envelope. cbn [nth_error Buffer_from_hex bind].
  rewrite !HexFacts.decode_encode. reflexivity.
Qed.

(** With a 32-byte key every call of [encrypt] succeeds. *)
Lemma encrypt_succeeds (plain : jsstring) (e : entropy) :
  seals gcm_cipher (key ENCRYPTION_KEY) ->
  List.length (key ENCRYPTION_KEY) = 32%nat ->
  exists ct tag,
    gcm_cipher (key ENCRYPTION_KEY) (nonce e) (Utf8.encode plain) = Ok (ct, tag) /\
    List.length ct = List.length (Utf8.encode plain) /\
    List.length tag = 16%nat /\
    encrypt gcm_cipher ENCRYPTION_KEY plain e =
    (Ok (envelope (nonce e) ct tag), snd (randomBytes 12 e)).
Proof.
  intros Hseals Hkey.
  destruct (Hseals (nonce e) (Utf8.encode plain) Hkey (nonce_length e))
    as (ct & tag & Hc & Hlc & Hlt).
  exists ct, tag. auto using encrypt_envelope.
Qed.

(** What was encrypted decrypts to itself when it is well-formed text. *)
Lemma decrypt_encrypted (plain : jsstring) (iv ct tag : list byte) :
  opens gcm_cipher gcm_decipher (key ENCRYPTION_KEY) ->
  Forall code_unit plain -> Utf8.isWellFormed plain = true ->
  gcm_cipher (key ENCRYPTION_KEY) iv (Utf8.encode plain) = Ok (ct, tag) ->
  decrypt gcm_decipher ENCRYPTION_KEY (envelope iv ct tag) = Ok plain.
Proof.
  intros Hopens Hu Hw Hc. rewrite decrypt_envelope.
  rewrite (Hopens _ _ _ _ Hc). cbn [bind].
  rewrite Utf8Facts.decode_encode_text by assumption. reflexivity.
Qed.


(** With fewer than two delimiters the third segment is missing, and
    [Buffer.from(undefined, "hex")] throws before the provider is called. *)
Lemma decrypt_short (s : jsstring) :
  (occurrences colon s < 2)%nat ->
  decrypt gcm_decipher ENCRYPTION_KEY s = Throw ERR_INVALID_ARG_TYPE.
Proof.
  intros Hlen. pose proof (split_length colon s) as Hs. unfold decrypt.
  destruct (split colon s) as [|a [|b [|c rest]]];
    cbn [List.length] in Hs; try lia; reflexivity.
Qed.

(** With two delimiters or more the provider is called, on what the first
    three segments decode to. *)
Lemma decrypt_long (s : jsstring) :
  (2 <= occurrences colon s)%nat ->
  exists a b c rest,
    split colon s = a :: b :: c :: rest /\
    decrypt gcm_decipher ENCRYPTION_KEY s =
    let* decrypted :=
      gcm_decipher (key ENCRYPTION_KEY) (Hex.decode a) (Hex.decode b) (Hex.decode c) in
    Ok (Utf8.decode decrypted).
Proof.
  intros Hlen. pose proof (split_length colon s) as Hs. unfold decrypt.
  destruct (split colon s) as [|a [|b [|c rest]]];
    cbn [List.length] in Hs; try lia.
  exists a, b, c, rest. split; reflexivity.
Qed.

(** Units after the hex of a component that do not decode are dropped,
    and so is whatever follows a third delimiter. *)
Lemma decrypt_followed (iv ct tag : list byte) (j1 j2 j3 : jsstring) :
  includes j1 colon = false -> includes j2 colon = false ->
  includes j3 colon = false ->
  Hex.decode j1 = [] -> Hex.decode j2 = [] -> Hex.decode j3 = [] ->
  decrypt gcm_decipher ENCRYPTION_KEY (envelope_followed iv ct tag j1 j2 j3)
  = decrypt gcm_decipher ENCRYPTION_KEY (envelope iv ct tag) /\
  forall extra,
    decrypt gcm_decipher ENCRYPTION_KEY
      (envelope_followed iv ct tag j1 j2 j3 ++ colon :: extra)
    = decrypt gcm_decipher ENCRYPTION_KEY (envelope iv ct tag).
Proof.
  intros H1 H2 H3 D1 D2 D3.
  assert (N1 : includes (Hex.encode iv ++ j1) colon = false)
    by (rewrite includes_app, HexFacts.encode_no_colon, H1; reflexivity).
  assert (N2 : includes (Hex.encode ct ++ j2) colon = false)
    by (rewrite includes_app, HexFacts.encode_no_colon, H2; reflexivity).
  assert (N3 : includes (Hex.encode tag ++ j3) colon = false)
    by (rewrite includes_app, HexFacts.encode_no_colon, H3; reflexivity).
  assert (E1 : Hex.decode (Hex.encode iv ++ j1) = iv)
    by (rewrite HexFacts.decode_app, D1; apply app_nil_r).
  assert (E2 : Hex.decode (Hex.encode ct ++ j2) = ct)
    by (rewrite HexFacts.decode_app, D2; apply app_nil_r).
  assert (E3 : Hex.decode (Hex.encode tag ++ j3) = tag)
    by (rewrite HexFacts.decode_app, D3; apply app_nil_r).
  rewrite decrypt_envelope. unfold decrypt, envelope_followed.
  revert N1 N2 N3 E1 E2 E3.
  generalize (Hex.encode iv ++ j1) (Hex.encode ct ++ j2) (Hex.encode tag ++ j3).
  intros a b c N1 N2 N3 E1 E2 E3. cbn [join]. split; [|intros extra].
  - rewrite (split_app _ _ _ N1), (split_app _ _ _ N2), (split_plain _ _ N3).
    cbn [nth_error Buffer_from_hex bind]. rewrite E1, E2, E3. reflexivity.
  - repeat (rewrite <- app_assoc; cbn [app]).
    rewrite (split_app _ _ _ N1), (split_app _ _ _ N2), (split_app _ _ _ N3).
    cbn [nth_error Buffer_from_hex bind]. rewrite E1, E2, E3. reflexivity.
Qed.

(** Of each unit of a segment only the low byte is read; the delimiter
    is looked for among whole units. *)
Lemma decrypt_low_bytes (f : Z -> Z) (s : jsstring) :
  (forall c, f c mod 256 = c mod 256) ->
  (forall c, (f c =? colon) = (c =? colon)) ->
  decrypt gcm_decipher ENCRYPTION_KEY (map f s)
  = decrypt gcm_decipher ENCRYPTION_KEY s.
Proof.
  intros Hlow Hsep. unfold decrypt. rewrite (split_map f colon s Hsep).
  assert (Hseg : forall o : option jsstring,
    Buffer_from_hex (option_map (map f) o) = Buffer_from_hex o).
  { intros [seg|]; [|reflexivity]. unfold option_map, Buffer_from_hex.
    rewrite (HexFacts.decode_low_bytes f seg Hlow). reflexivity. }
  assert (H : forall i,
    Buffer_from_hex (nth_error (map (map f) (split colon s)) i)
    = Buffer_from_hex (nth_error (split colon s) i)).
  { intros i. rewrite nth_error_map. apply Hseg. }
  rewrite !H. reflexivity.
Qed.

(** C1, as amended. For every plaintext that is well-formed text (a
    string of UTF-16 code units with no lone surrogate), the empty string
    and multi-byte text included, [encrypt] returns an envelope and
    [decrypt] of that envelope returns the plaintext. The provider is
    assumed to encrypt under the process key and to decrypt what it
    encrypted; the key is assumed to be 32 bytes long. *)
Theorem decrypt_encrypt_round_trip (plain : jsstring) (e : entropy) :
  seals gcm_cipher (key ENCRYPTION_KEY) ->
  opens gcm_cipher gcm_decipher (key ENCRYPTION_KEY) ->
  List.length (key ENCRYPTION_KEY) = 32%nat ->
  Forall code_unit plain -> Utf8.isWellFormed plain = true ->
  exists s,
    fst (encrypt gcm_cipher ENCRYPTION_KEY plain e) = Ok s /\
    decrypt gcm_decipher ENCRYPTION_KEY s = Ok plain.
Proof.
  intros Hseals Hopens Hkey Hu Hw.
  destruct (encrypt_succeeds plain e Hseals Hkey) as (ct & tag & Hc & _ & _ & He).
  exists (envelope (nonce e) ct tag). rewrite He. split; [reflexivity|].
  apply decrypt_encrypted; assumption.
Qed.

(** C7. For every plaintext, the string [encrypt] returns has exactly
    three [":"]-delimited segments, each of them valid hex; the first
    decodes to 12 bytes, the third to 16 bytes, and the middle one to as
    many bytes as the UTF-8 encoding of the plaintext has. The provider
    is assumed to encrypt under the process key, a key of 32 bytes. *)
Theorem encrypt_envelope_format (plain : jsstring) (e : entropy) :
  seals gcm_cipher (key ENCRYPTION_KEY) ->
  List.length (key ENCRYPTION_KEY) = 32%nat ->
  exists s a b c,
    fst (encrypt gcm_cipher ENCRYPTION_KEY plain e) = Ok s /\
    split colon s = [a; b; c] /\
    valid_hex a = true /\ valid_hex b = true /\ valid_hex c = true /\
    List.length (Hex.decode a) = 12%nat /\
    List.length (Hex.decode b) = List.length (Utf8.encode plain) /\
    List.length (Hex.decode c) = 16%nat.
Proof.
  intros Hseals Hkey.
  destruct (encrypt_succeeds plain e Hseals Hkey)
    as (ct & tag & Hc & Hlc & Hlt & He).
  exists (envelope (nonce e) ct tag), (Hex.encode (nonce e)), (Hex.encode ct),
    (Hex.encode tag).
  rewrite He, split_envelope, !HexFacts.decode_encode, !HexFacts.encode_valid.
  rewrite nonce_length, Hlc, Hlt. repeat split; reflexivity.
Qed.


(** C4, as amended. Two calls of [encrypt] on the same plaintext that
    draw different nonces return different envelopes; when the plaintext
    is well-formed text, both envelopes decrypt to it. Same assumptions
    as for the round trip. *)
Theorem encrypt_twice_differs (plain : jsstring) (e1 e2 : entropy) :
  seals gcm_cipher (key ENCRYPTION_KEY) ->
  opens gcm_cipher gcm_decipher (key ENCRYPTION_KEY) ->
  List.length (key ENCRYPTION_KEY) = 32%nat ->
  nonce e1 <> nonce e2 ->
  exists s1 s2,
    fst (encrypt gcm_cipher ENCRYPTION_KEY plain e1) = Ok s1 /\
    fst (encrypt gcm_cipher ENCRYPTION_KEY plain e2) = Ok s2 /\
    s1 <> s2 /\
    (Forall code_unit plain -> Utf8.isWellFormed plain = true ->
     decrypt gcm_decipher ENCRYPTION_KEY s1 = Ok plain /\
     decrypt gcm_decipher ENCRYPTION_KEY s2 = Ok plain).
Proof.
  intros Hseals Hopens Hkey Hne.
  destruct (encrypt_succeeds plain e1 Hseals Hkey) as (ct1 & tag1 & Hc1 & _ & _ & He1).
  destruct (encrypt_succeeds plain e2 Hseals Hkey) as (ct2 & tag2 & Hc2 & _ & _ & He2).
  exists (envelope (nonce e1) ct1 tag1), (envelope (nonce e2) ct2 tag2).
  rewrite He1, He2. repeat split; try reflexivity.
  - intros E. apply envelope_inj in E. destruct E as [E _]. exact (Hne E).
  - apply decrypt_encrypted; assumption.
  - apply decrypt_encrypted; assumption.
Qed.

(** C2, as amended. [decrypt] checks nothing but that there are three
    segments. With fewer than two [":"] in the input it throws a
    [TypeError] before the provider is called, whatever the provider is.
    With two or more the provider is called, on what the first three
    segments decode to. The decoding is the lenient one of
    [Buffer.from(s, "hex")]: units after the hex of a component that do
    not decode, and whatever follows a third delimiter, make no
    difference to the result; nor does the high byte of a unit, since
    only the low byte is read. *)
Theorem decrypt_checks_segment_count :
  (forall s,
      (occurrences colon s < 2)%nat ->
      decrypt gcm_decipher ENCRYPTION_KEY s = Throw ERR_INVALID_ARG_TYPE) /\
  (forall s,
      (2 <= occurrences colon s)%nat ->
      exists a b c rest,
        split colon s = a :: b :: c :: rest /\
        decrypt gcm_decipher ENCRYPTION_KEY s =
        let* decrypted :=
          gcm_decipher (key ENCRYPTION_KEY) (Hex.decode a) (Hex.decode b) (Hex.decode c) in
        Ok (Utf8.decode decrypted)) /\
  (forall iv ct tag j1 j2 j3,
      includes j1 colon = false -> includes j2 colon = false ->
      includes j3 colon = false ->
      Hex.decode j1 = [] -> Hex.decode j2 = [] -> Hex.decode j3 = [] ->
      decrypt gcm_decipher ENCRYPTION_KEY (envelope_followed iv ct tag j1 j2 j3)
      = decrypt gcm_decipher ENCRYPTION_KEY (envelope iv ct tag) /\
      forall extra,
        decrypt gcm_decipher ENCRYPTION_KEY
          (envelope_followed iv ct tag j1 j2 j3 ++ colon :: extra)
        = decrypt gcm_decipher ENCRYPTION_KEY (envelope iv ct tag)) /\
  (forall (f : Z -> Z) s,
      (forall c, f c mod 256 = c mod 256) ->
      (forall c, (f c =? colon) = (c =? colon)) ->
      decrypt gcm_decipher ENCRYPTION_KEY (map f s)
      = decrypt gcm_decipher ENCRYPTION_KEY s).
Proof.
  split; [exact decrypt_short|]. split; [exact decrypt_long|].
  split; [exact decrypt_followed|exact decrypt_low_bytes].
Qed.

(** C8, as amended. Resolving the key never fails, whatever its length.
    A key that is not 32 bytes long is refused by the provider in every
    call: [encrypt] throws [Invalid key length] each time, and [decrypt]
    throws on every input, so that nothing is encrypted or decrypted with
    such a key. *)
Theorem wrong_key_length_fails_each_call :
  checks_key_length gcm_cipher gcm_decipher (key ENCRYPTION_KEY) ->
  List.length (key ENCRYPTION_KEY) <> 32%nat ->
  resolved (load ENCRYPTION_KEY) = Ok (key ENCRYPTION_KEY) /\
  (forall plain e,
      fst (encrypt gcm_cipher ENCRYPTION_KEY plain e) = Throw ERR_CRYPTO_INVALID_KEYLEN) /\
  (forall s, exists err, decrypt gcm_decipher ENCRYPTION_KEY s = Throw err).
Proof.
  intros Hcheck Hlen. destruct (Hcheck Hlen) as [Hc Hd].
  split; [reflexivity|]. split.
  - intros plain e. pose proof (Hc (nonce e) (Utf8.encode plain) (nonce_length e)) as H.
    unfold encrypt, nonce in *. destruct (randomBytes 12 e) as [iv e'].
    cbn [fst] in H. rewrite H. reflexivity.
  - intros s. unfold decrypt.
    destruct (split colon s) as [|a [|b [|c rest]]];
      try (exists ERR_INVALID_ARG_TYPE; reflexivity).
    cbn [nth_error Buffer_from_hex bind].
    destruct (Hd (Hex.decode a) (Hex.decode b) (Hex.decode c)) as [err Herr].
    exists err. rewrite Herr. reflexivity.
Qed.

End EncryptionProperties.

(** C9, as amended. When [ENCRYPTION_KEY] is not set, the key is the
    hard-coded 32-byte fallback; resolving the key never fails and never
    writes a warning, whether the variable is set or not. *)
Theorem absent_key_falls_back_silently :
  (forall v, warnings (load v) = [] /\ resolved (load v) = Ok (key v)) /\
  key None = Utf8.encode fallback_key /\
  List.length (key None) = 32%nat.
Proof. repeat split. Qed.

(* ------------------------------------------------------------------ *)
(** ** The properties at concrete inputs *)

(** The round trip on text outside ASCII, with the reference provider and
    the fallback key. *)
Lemma decrypt_encrypt_round_trip_at_sample :
  exists s,
    fst (encrypt Reference.cipher None sample_text Reference.counting) = Ok s /\
    decrypt Reference.decipher None s = Ok sample_text.
Proof.
  apply (decrypt_encrypt_round_trip Reference.cipher Reference.decipher None
           sample_text Reference.counting
           (ReferenceFacts.meets_seals _) (ReferenceFacts.meets_opens _)).
  - reflexivity.
  - repeat constructor; unfold code_unit; lia.
  - reflexivity.
Defined.

(** The empty string goes round as well: its envelope has an empty middle
    segment. *)
Example round_trip_of_empty_string :
  exists s,
    fst (encrypt Reference.cipher None [] Reference.counting) = Ok s /\
    List.length (split colon s) = 3%nat /\
    nth_error (split colon s) 1 = Some [] /\
    decrypt Reference.decipher None s = Ok [].
Proof. eexists. repeat split; vm_compute; reflexivity. Qed.

(** C1 as stated fails on a lone surrogate: the encoder writes U+FFFD for
    it, and U+FFFD is what comes back. *)
Lemma round_trip_loses_lone_surrogate :
  exists s,
    fst (encrypt Reference.cipher None [0xD800] Reference.counting) = Ok s /\
    decrypt Reference.decipher None s = Ok [0xFFFD] /\
    Utf8.decode (Utf8.encode [0xD800]) = [0xFFFD].
Proof. eexists. repeat split; vm_compute; reflexivity. Qed.

(** The format of the envelope of ["123-45-6789"]. *)
Lemma encrypt_envelope_format_at_sample :
  exists s a b c,
    fst (encrypt Reference.cipher None (js "123-45-6789") Reference.counting) = Ok s /\
    split colon s = [a; b; c] /\
    valid_hex a = true /\ valid_hex b = true /\ valid_hex c = true /\
    List.length (Hex.decode a) = 12%nat /\
    List.length (Hex.decode b) = List.length (Utf8.encode (js "123-45-6789")) /\
    List.length (Hex.decode c) = 16%nat.
Proof.
  apply (encrypt_envelope_format Reference.cipher None (js "123-45-6789")
           Reference.counting (ReferenceFacts.meets_seals _)).
  reflexivity.
Defined.



(** Two calls in a row on ["987-65-4321"]: the nonces are bytes 0 to 11
    and 12 to 23 of the tape. *)
Lemma encrypt_twice_differs_at_sample :
  exists s1 s2,
    fst (encrypt Reference.cipher None (js "987-65-4321") Reference.counting) = Ok s1 /\
    fst (encrypt Reference.cipher None (js "987-65-4321") counting_next) = Ok s2 /\
    s1 <> s2 /\
    (Forall code_unit (js "987-65-4321") ->
     Utf8.isWellFormed (js "987-65-4321") = true ->
     decrypt Reference.decipher None s1 = Ok (js "987-65-4321") /\
     decrypt Reference.decipher None s2 = Ok (js "987-65-4321")).
Proof.
  apply (encrypt_twice_differs Reference.cipher Reference.decipher None
           (js "987-65-4321") Reference.counting counting_next
           (ReferenceFacts.meets_seals _) (ReferenceFacts.meets_opens _)).
  - reflexivity.
  - vm_compute. discriminate.
Defined.

(** C4 as stated fails on a lone surrogate: the two envelopes differ, and
    both decrypt to U+FFFD. *)
Lemma encrypt_twice_loses_lone_surrogate :
  exists s1 s2,
    fst (encrypt Reference.cipher None [0xDC00] Reference.counting) = Ok s1 /\
    fst (encrypt Reference.cipher None [0xDC00] counting_next) = Ok s2 /\
    s1 <> s2 /\
    decrypt Reference.decipher None s1 = Ok [0xFFFD] /\
    decrypt Reference.decipher None s2 = Ok [0xFFFD].
Proof.
  eexists. eexists. repeat split; try (vm_compute; reflexivity).
  vm_compute. discriminate.
Qed.

(** C2 as stated fails: an envelope followed by a fourth segment, an
    envelope with units that are not hex digits in a segment, and an
    envelope with U+0130 for each digit zero all decrypt to the plaintext;
    a string that is no hex at all reaches the provider. *)
Lemma decrypt_accepts_malformed :
  three_hex_segments (sample_envelope ++ js ":00") = false /\
  decrypt Reference.decipher None (sample_envelope ++ js ":00") = Ok (js "123-45-6789") /\
  three_hex_segments sample_with_junk = false /\
  decrypt Reference.decipher None sample_with_junk = Ok (js "123-45-6789") /\
  three_hex_segments sample_wide_digits = false /\
  decrypt Reference.decipher None sample_wide_digits = Ok (js "123-45-6789") /\
  three_hex_segments (js "x:y:z") = false /\
  decrypt (fun _ _ _ _ => Ok []) None (js "x:y:z") = Ok [].
Proof. repeat split; vm_compute; reflexivity. Qed.

(** With [ENCRYPTION_KEY=short] every call throws. *)
Lemma wrong_key_length_fails_each_call_at_sample :
  resolved (load (Some (js "short"))) = Ok (key (Some (js "short"))) /\
  (forall plain e,
      fst (encrypt Reference.cipher (Some (js "short")) plain e)
      = Throw ERR_CRYPTO_INVALID_KEYLEN) /\
  (forall s, exists err, decrypt Reference.decipher (Some (js "short")) s = Throw err).
Proof.
  apply (wrong_key_length_fails_each_call Reference.cipher Reference.decipher
           (Some (js "short")) (ReferenceFacts.meets_key_length _)).
  vm_compute. discriminate.
Defined.

(** C8 as stated fails: a key of five bytes is resolved without error. *)
Lemma short_key_is_resolved :
  resolved (load (Some (js "short"))) = Ok (Utf8.encode (js "short")) /\
  List.length (Utf8.encode (js "short")) = 5%nat.
Proof. split; reflexivity. Qed.

(** C9 as stated fails: with no key configured, resolution neither fails
    nor warns. *)
Lemma absent_key_is_silent :
  resolved (load None) = Ok (Utf8.encode fallback_key) /\
  warnings (load None) = [].
Proof. split; reflexivity. Qed.

(* ================================================================== *)
(** * Properties of the [encrypt-ssns] sweep *)

Section SweepProperties.

Variable gcm_cipher :
  list byte -> list byte -> list byte -> result (list byte * list byte).
Variable gcm_decipher :
  list byte -> list byte -> list byte -> list byte -> result (list byte).
Variable ENCRYPTION_KEY : option jsstring.

(* ------------------------------------------------------------------ *)
(** ** The classification *)

(** A row is skipped exactly when its value is NULL, empty, or contains a
    colon. *)
Lemma unprotected_false (u : user) :
  unprotected u = false <->
  ssn u = None \/ ssn u = Some [] \/
  exists s, ssn u = Some s /\ includes s colon = true.
Proof.
  unfold unprotected. destruct (ssn u) as [[|c s]|]; cbn [truthy andb].
  - split; auto.
  - rewrite negb_false_iff. split.
    + intros H. right. right. exists (c :: s). auto.
    + intros [H|[H|(s' & H & Hs)]]; try discriminate H.
      injection H as H. subst s'. exact Hs.
  - split; auto.
Qed.

Lemma unprotected_true (u : user) :
  unprotected u = true ->
  exists s, ssn u = Some s /\ truthy s && negb (includes s colon) = true.
Proof.
  unfold unprotected. destruct (ssn u) as [s|]; [|discriminate].
  intros H. exists s. auto.
Qed.

Lemma envelope_protected (uid : Z) (iv ct tag : list byte) :
  unprotected {| id := uid; ssn := Some (envelope iv ct tag) |} = false.
Proof.
  unfold unprotected. cbn [ssn]. rewrite envelope_includes_colon.
  apply andb_false_r.
Qed.

(* ------------------------------------------------------------------ *)
(** ** The [UPDATE] statement *)

Lemma update_run_ids (enc : jsstring) (uid : Z) (table : list user) :
  map id (update_run enc uid table) = map id table.
Proof.
  unfold update_run. rewrite map_map. apply map_ext.
  intros u. destruct (id u =? uid); reflexivity.
Qed.

Lemma update_run_other (enc : jsstring) (uid : Z) (table : list user) (i : nat) (u : user) :
  nth_error table i = Some u -> id u <> uid ->
  nth_error (update_run enc uid table) i = Some u.
Proof.
  intros Hi Hne. unfold update_run. rewrite nth_error_map, Hi. cbn [option_map].
  apply Z.eqb_neq in Hne. rewrite Hne. reflexivity.
Qed.

Lemma update_run_absent (enc : jsstring) (uid : Z) (table : list user) :
  ~ In uid (map id table) -> update_run enc uid table = table.
Proof.
  induction table as [|u table IH]; [reflexivity|].
  cbn [map In update_run]. intros H.
  destruct (Z.eqb_spec (id u) uid) as [E|E]; [exfalso; auto|].
  unfold update_run in IH. rewrite IH by auto. reflexivity.
Qed.

(** With unique ids the statement rewrites one row. *)
Lemma update_run_unique (enc : jsstring) (pre post : list user) (u : user) :
  NoDup (map id (pre ++ u :: post)) ->
  update_run enc (id u) (pre ++ u :: post) =
  pre ++ {| id := id u; ssn := Some enc |} :: post.
Proof.
  intros Hnd. rewrite map_app in Hnd. cbn [map] in Hnd.
  pose proof (NoDup_remove_2 _ _ _ Hnd) as Hnotin.
  rewrite in_app_iff in Hnotin.
  unfold update_run. rewrite map_app. cbn [map]. rewrite Z.eqb_refl.
  fold (update_run enc (id u) pre). fold (update_run enc (id u) post).
  rewrite !update_run_absent by tauto. reflexivity.
Qed.

Lemma unique_id (table : list user) (a b : user) :
  NoDup (map id table) -> In a table -> In b table -> id a = id b -> a = b.
Proof.
  induction table as [|u table IH]; [intros _ []|].
  cbn [map]. intros Hnd Ha Hb E. inversion Hnd as [|? ? Hnotin Hnd']; subst.
  destruct Ha as [Ha|Ha], Hb as [Hb|Hb]; subst.
  - reflexivity.
  - exfalso. apply Hnotin. rewrite E. apply in_map. exact Hb.
  - exfalso. apply Hnotin. rewrite <- E. apply in_map. exact Ha.
  - apply IH; assumption.
Qed.

(* ------------------------------------------------------------------ *)
(** ** Reading the rows *)

(** Up to [2 ^ 53] in absolute value an id is read as it is stored. *)
Lemma safe_integer_exact (z : Z) : Z.abs z <= 2 ^ 53 -> exact_number z.
Proof.
  intros H. unfold exact_number, to_number.
  rewrite (proj2 (Z.leb_le _ _) H). reflexivity.
Qed.

(** When every id is read as it is stored, the row objects are the rows. *)
Lemma select_all_exact (table : list user) :
  Forall exact_number (map id table) -> select_all table = table.
Proof.
  induction table as [|u table IH]; [reflexivity|].
  cbn [map select_all]. intros H. inversion H as [|? ? Hu Hrest]; subst.
  fold (select_all table). rewrite (IH Hrest), Hu. destruct u. reflexivity.
Qed.

(** The rounding of an id does not touch the value next to it. *)
Lemma select_all_values (table : list user) :
  map unprotected (select_all table) = map unprotected table.
Proof. unfold select_all. rewrite map_map. reflexivity. Qed.

Lemma select_all_protected (table : list user) :
  Forall (fun u => unprotected u = false) table ->
  Forall (fun u => unprotected u = false) (select_all table).
Proof.
  induction 1 as [|u table Hu _ IH]; constructor; [exact Hu|exact IH].
Qed.

Lemma select_all_existsb (table : list user) :
  existsb unprotected (select_all table) = existsb unprotected table.
Proof.
  induction table as [|u table IH]; [reflexivity|].
  cbn [select_all map existsb]. fold (select_all table). rewrite IH. reflexivity.
Qed.

Lemma select_all_filter (table : list user) :
  List.length (filter unprotected (select_all table))
  = List.length (filter unprotected table).
Proof.
  induction table as [|u table IH]; [reflexivity|].
  cbn [select_all map filter]. fold (select_all table).
  change (unprotected {| id := to_number (id u); ssn := ssn u |})
    with (unprotected u).
  destruct (unprotected u); cbn [List.length]; rewrite IH; reflexivity.
Qed.

(* ------------------------------------------------------------------ *)
(** ** One row, and the loop *)

Lemma encryptions_app (uid : Z) (a b : list console_line) :
  encryptions uid (a ++ b) = (encryptions uid a + encryptions uid b)%nat.
Proof. unfold encryptions. rewrite filter_app, length_app. reflexivity. Qed.

Lemma visit_protected (u : user) (w : world) :
  unprotected u = false -> visit gcm_cipher ENCRYPTION_KEY u w = (None, w).
Proof.
  unfold unprotected, visit. destruct (ssn u) as [s|]; [|reflexivity].
  intros H. rewrite H. reflexivity.
Qed.

(** A visit leaves the table as it is or runs the [UPDATE] for the id of
    an unprotected row. *)
Lemma visit_users (u : user) (w : world) :
  users (snd (visit gcm_cipher ENCRYPTION_KEY u w)) = users w \/
  (unprotected u = true /\
   exists enc, users (snd (visit gcm_cipher ENCRYPTION_KEY u w))
               = update_run enc (id u) (users w)).
Proof.
  destruct (unprotected u) eqn:Hu.
  - destruct (unprotected_true u Hu) as (s & Hs & Ht).
    unfold visit. rewrite Hs, Ht.
    destruct (encrypt gcm_cipher ENCRYPTION_KEY s (rng w)) as [[enc|err] e'].
    + right. split; [reflexivity|]. exists enc. reflexivity.
    + left. reflexivity.
  - rewrite visit_protected by assumption. left. reflexivity.
Qed.

Lemma forEach_cons (u : user) (rest : list user) (w : world) :
  forEach gcm_cipher ENCRYPTION_KEY (u :: rest) w =
  match visit gcm_cipher ENCRYPTION_KEY u w with
  | (Some err, w') => (Some err, w')
  | (None, w') => forEach gcm_cipher ENCRYPTION_KEY rest w'
  end.
Proof. reflexivity. Qed.

(** The loop leaves a row alone when no unprotected row it visits has
    that row's id. *)
Lemma forEach_frame (us : list user) (w : world) (i : nat) (u0 : user) :
  nth_error (users w) i = Some u0 ->
  (forall u, In u us -> unprotected u = true -> id u <> id u0) ->
  nth_error (users (snd (forEach gcm_cipher ENCRYPTION_KEY us w))) i = Some u0.
Proof.
  revert w. induction us as [|u rest IH]; intros w Hi Hids; [exact Hi|].
  rewrite forEach_cons.
  assert (Hstep : nth_error (users (snd (visit gcm_cipher ENCRYPTION_KEY u w))) i
                  = Some u0).
  { destruct (visit_users u w) as [E|(Hu & enc & E)]; rewrite E; [exact Hi|].
    apply update_run_other; [exact Hi|].
    intros Eid. exact (Hids u (or_introl eq_refl) Hu (eq_sym Eid)). }
  destruct (visit gcm_cipher ENCRYPTION_KEY u w) as [[err|] w']; cbn [snd] in *.
  - exact Hstep.
  - apply IH; [exact Hstep|]. intros v Hv. apply Hids. right. exact Hv.
Qed.

Lemma forEach_ids (us : list user) (w : world) :
  map id (users (snd (forEach gcm_cipher ENCRYPTION_KEY us w))) = map id (users w).
Proof.
  revert w. induction us as [|u rest IH]; intros w; [reflexivity|].
  rewrite forEach_cons.
  assert (Hstep : map id (users (snd (visit gcm_cipher ENCRYPTION_KEY u w)))
                  = map id (users w)).
  { destruct (visit_users u w) as [E|(_ & enc & E)]; rewrite E;
      [reflexivity|apply update_run_ids]. }
  destruct (visit gcm_cipher ENCRYPTION_KEY u w) as [[err|] w']; cbn [snd] in *.
  - exact Hstep.
  - rewrite IH. exact Hstep.
Qed.

(** A visit writes to the console only to report the encryption of the
    row it visits. *)
Lemma visit_console (u : user) (w : world) :
  console (snd (visit gcm_cipher ENCRYPTION_KEY u w)) = console w \/
  (unprotected u = true /\
   console (snd (visit gcm_cipher ENCRYPTION_KEY u w))
   = console w ++ [LogEncrypted (id u)]).
Proof.
  destruct (unprotected u) eqn:Hu.
  - destruct (unprotected_true u Hu) as (s & Hs & Ht).
    unfold visit. rewrite Hs, Ht.
    destruct (encrypt gcm_cipher ENCRYPTION_KEY s (rng w)) as [[enc|err] e'].
    + right. split; reflexivity.
    + left. reflexivity.
  - rewrite visit_protected by assumption. left. reflexivity.
Qed.

Lemma forEach_silent (us : list user) (w : world) (uid : Z) :
  (forall u, In u us -> unprotected u = true -> id u <> uid) ->
  encryptions uid (console (snd (forEach gcm_cipher ENCRYPTION_KEY us w)))
  = encryptions uid (console w).
Proof.
  revert w. induction us as [|u rest IH]; intros w Hids; [reflexivity|].
  rewrite forEach_cons.
  assert (Hstep : encryptions uid (console (snd (visit gcm_cipher ENCRYPTION_KEY u w)))
                  = encryptions uid (console w)).
  { destruct (visit_console u w) as [E|(Hu & E)]; rewrite E; [reflexivity|].
    rewrite encryptions_app. unfold encryptions at 2. cbn [filter].
    pose proof (Hids u (or_introl eq_refl) Hu) as Hne.
    apply Z.eqb_neq in Hne. rewrite Hne. cbn. lia. }
  destruct (visit gcm_cipher ENCRYPTION_KEY u w) as [[err|] w']; cbn [snd] in *.
  - exact Hstep.
  - rewrite IH; [exact Hstep|]. intros v Hv. apply Hids. right. exact Hv.
Qed.

Lemma encrypt_ssns_users (w : world) :
  users (snd (encrypt_ssns gcm_cipher ENCRYPTION_KEY w)) =
  users (snd (forEach gcm_cipher ENCRYPTION_KEY (select_all (users w))
                (log LogBanner w))).
Proof.
  unfold encrypt_ssns. cbn [log users].
  destruct (select_all (users w)) as [|u rest] eqn:E; [reflexivity|].
  destruct (forEach _ _ _ _) as [[err|] w']; reflexivity.
Qed.

(** A run leaves every row it takes for protected as it was. *)
Lemma encrypt_ssns_frame (w : world) (i : nat) (u0 : user) :
  NoDup (map id (users w)) -> Forall exact_number (map id (users w)) ->
  nth_error (users w) i = Some u0 -> unprotected u0 = false ->
  nth_error (users (snd (encrypt_ssns gcm_cipher ENCRYPTION_KEY w))) i = Some u0.
Proof.
  intros Hnd Hex Hi Hp. rewrite encrypt_ssns_users, (select_all_exact _ Hex).
  apply forEach_frame; [exact Hi|].
  intros u Hin Hu Eid.
  assert (u = u0).
  { apply (unique_id (users w)); auto. eapply nth_error_In; eauto. }
  subst u. rewrite Hu in Hp. discriminate Hp.
Qed.

Lemma encrypt_ssns_ids (w : world) :
  map id (users (snd (encrypt_ssns gcm_cipher ENCRYPTION_KEY w))) = map id (users w).
Proof. rewrite encrypt_ssns_users, forEach_ids. reflexivity. Qed.

(** A run reports no encryption for a row it takes for protected. *)
Lemma encrypt_ssns_silent (w : world) (u0 : user) :
  NoDup (map id (users w)) -> Forall exact_number (map id (users w)) ->
  In u0 (users w) -> unprotected u0 = false ->
  encryptions (id u0) (console (snd (encrypt_ssns gcm_cipher ENCRYPTION_KEY w)))
  = encryptions (id u0) (console w).
Proof.
  intros Hnd Hex Hin Hp.
  assert (Hloop : encryptions (id u0)
            (console (snd (forEach gcm_cipher ENCRYPTION_KEY (users w) (log LogBanner w))))
          = encryptions (id u0) (console w)).
  { rewrite forEach_silent.
    - cbn [log console]. rewrite encryptions_app. cbn. lia.
    - intros u Hu Hunp Eid.
      assert (u = u0) by (apply (unique_id (users w)); auto).
      subst u. rewrite Hunp in Hp. discriminate Hp. }
  unfold encrypt_ssns. cbn [log users]. rewrite (select_all_exact _ Hex).
  destruct (users w) as [|u rest] eqn:E; [contradiction|].
  destruct (forEach _ _ _ _) as [[err|] w']; cbn [snd] in *.
  - exact Hloop.
  - cbn [log console]. rewrite encryptions_app, Hloop. cbn. lia.
Qed.

(** C10, as amended. In a table whose ids are unique and are read as
    they are stored (each is a JavaScript number as it stands, as every
    id up to [2 ^ 53] is), a record whose stored value contains a [":"]
    anywhere is left as it is by every run of the sweep, whether or not
    the value is an envelope, and no run reports an encryption for it. *)
Theorem sweep_skips_values_with_colon
    (w : world) (n i : nat) (u : user) (s : jsstring) :
  NoDup (map id (users w)) ->
  Forall exact_number (map id (users w)) ->
  nth_error (users w) i = Some u ->
  ssn u = Some s -> includes s colon = true ->
  nth_error (users (sweeps gcm_cipher ENCRYPTION_KEY n w)) i = Some u /\
  encryptions (id u) (console (sweeps gcm_cipher ENCRYPTION_KEY n w)) = encryptions (id u) (console w).
Proof.
  intros Hnd Hex Hi Hs Hc.
  assert (Hp : unprotected u = false).
  { apply unprotected_false. right. right. exists s. auto. }
  revert w Hnd Hex Hi. induction n as [|n IH]; intros w Hnd Hex Hi; [auto|].
  cbn [sweeps].
  destruct (IH (snd (encrypt_ssns gcm_cipher ENCRYPTION_KEY w))) as [Hrow Hlog].
  - rewrite encrypt_ssns_ids. exact Hnd.
  - rewrite encrypt_ssns_ids. exact Hex.
  - apply encrypt_ssns_frame; assumption.
  - split; [exact Hrow|]. rewrite Hlog.
    apply encrypt_ssns_silent; try assumption.
    eapply nth_error_In. exact Hi.
Qed.

(* ------------------------------------------------------------------ *)
(** ** A run with a working key *)

Lemma visit_unprotected (u : user) (w : world) :
  seals gcm_cipher (key ENCRYPTION_KEY) ->
  List.length (key ENCRYPTION_KEY) = 32%nat ->
  unprotected u = true ->
  exists s ct tag,
    ssn u = Some s /\
    gcm_cipher (key ENCRYPTION_KEY) (nonce (rng w)) (Utf8.encode s) = Ok (ct, tag) /\
    visit gcm_cipher ENCRYPTION_KEY u w =
    (None, {| users := update_run (envelope (nonce (rng w)) ct tag) (id u) (users w);
              rng := snd (randomBytes 12 (rng w));
              console := console w ++ [LogEncrypted (id u)] |}).
Proof.
  intros Hseals Hkey Hu.
  destruct (unprotected_true u Hu) as (s & Hs & Ht).
  destruct (encrypt_succeeds gcm_cipher ENCRYPTION_KEY s (rng w) Hseals Hkey)
    as (ct & tag & Hc & _ & _ & He).
  exists s, ct, tag. split; [exact Hs|]. split; [exact Hc|].
  unfold visit. rewrite Hs, Ht, He. reflexivity.
Qed.

(** The loop over the rows not yet visited, the table being the rows
    already visited followed by those. *)
Lemma forEach_converts (us : list user) :
  seals gcm_cipher (key ENCRYPTION_KEY) ->
  List.length (key ENCRYPTION_KEY) = 32%nat ->
  forall (pre : list user) (w : world),
    users w = pre ++ us -> NoDup (map id (pre ++ us)) ->
    exists us' w',
      forEach gcm_cipher ENCRYPTION_KEY us w = (None, w') /\
      users w' = pre ++ us' /\
      Forall2 (converted gcm_cipher ENCRYPTION_KEY) us us' /\
      console w' =
      console w ++ map LogEncrypted (map id (filter unprotected us)).
Proof.
  intros Hseals Hkey. induction us as [|u rest IH]; intros pre w Hw Hnd.
  - exists [], w. cbn [forEach filter map]. rewrite !app_nil_r in *.
    repeat split; [exact Hw|constructor].
  - rewrite forEach_cons. destruct (unprotected u) eqn:Hu.
    + destruct (visit_unprotected u w Hseals Hkey Hu)
        as (s & ct & tag & Hs & Hc & Hv).
      rewrite Hv, Hw, (update_run_unique _ _ _ _ Hnd).
      set (u' := {| id := id u; ssn := Some (envelope (nonce (rng w)) ct tag) |}).
      destruct (IH (pre ++ [u'])
                   {| users := pre ++ u' :: rest;
                      rng := snd (randomBytes 12 (rng w));
                      console := console w ++ [LogEncrypted (id u)] |})
        as (us' & w' & Hf & Hus & Hconv & Hlog).
      { cbn [users]. rewrite <- app_assoc. reflexivity. }
      { rewrite <- app_assoc. cbn [app].
        rewrite map_app in *. cbn [map] in *. exact Hnd. }
      exists (u' :: us'), w'. split; [exact Hf|]. split; [|split].
      * rewrite Hus, <- app_assoc. reflexivity.
      * constructor; [|exact Hconv]. unfold converted. rewrite Hu.
        split; [reflexivity|].
        exists s, (nonce (rng w)), ct, tag.
        auto using nonce_length.
      * rewrite Hlog. cbn [console filter]. rewrite Hu. cbn [map].
        rewrite <- app_assoc. reflexivity.
    + rewrite (visit_protected u w Hu).
      destruct (IH (pre ++ [u]) w) as (us' & w' & Hf & Hus & Hconv & Hlog).
      { rewrite Hw, <- app_assoc. reflexivity. }
      { rewrite <- app_assoc. exact Hnd. }
      exists (u :: us'), w'. split; [exact Hf|]. split; [|split].
      * rewrite Hus, <- app_assoc. reflexivity.
      * constructor; [|exact Hconv]. unfold converted. rewrite Hu. reflexivity.
      * rewrite Hlog. cbn [filter]. rewrite Hu. reflexivity.
Qed.

Lemma encrypt_ssns_converts (w : world) :
  seals gcm_cipher (key ENCRYPTION_KEY) ->
  List.length (key ENCRYPTION_KEY) = 32%nat ->
  NoDup (map id (users w)) -> Forall exact_number (map id (users w)) ->
  exists w' last,
    encrypt_ssns gcm_cipher ENCRYPTION_KEY w = (None, w') /\
    Forall2 (converted gcm_cipher ENCRYPTION_KEY) (users w) (users w') /\
    console w' =
    console w ++ LogBanner
      :: map LogEncrypted (map id (filter unprotected (users w))) ++ [last] /\
    (last = LogNoUsers \/ last = LogAllEncrypted).
Proof.
  intros Hseals Hkey Hnd Hex. unfold encrypt_ssns. cbn [log users].
  rewrite (select_all_exact _ Hex).
  destruct (users w) as [|u rest] eqn:E.
  - eexists. exists LogNoUsers. split; [reflexivity|]. cbn [users console log].
    rewrite E. split; [constructor|]. split; [|auto].
    rewrite <- app_assoc. reflexivity.
  - destruct (forEach_converts (u :: rest) Hseals Hkey [] (log LogBanner w))
      as (us' & w' & Hf & Hus & Hconv & Hlog).
    { exact E. }
    { exact Hnd. }
    rewrite Hf.
    eexists. exists LogAllEncrypted. split; [reflexivity|].
    cbn [users console log] in *. rewrite Hus. split; [exact Hconv|].
    split; [|auto]. rewrite Hlog, <- !app_assoc. reflexivity.
Qed.

(* ------------------------------------------------------------------ *)
(** ** Counting the encryptions a run reports *)

Lemma encryptions_absent (uid : Z) (ids : list Z) :
  ~ In uid ids -> encryptions uid (map LogEncrypted ids) = 0%nat.
Proof.
  induction ids as [|x ids IH]; [reflexivity|].
  cbn [In map]. intros H. unfold encryptions in *. cbn [filter].
  destruct (Z.eqb_spec x uid) as [E|E]; [exfalso; auto|]. apply IH. tauto.
Qed.

Lemma filter_ids_subset (us : list user) (uid : Z) :
  In uid (map id (filter unprotected us)) -> In uid (map id us).
Proof.
  rewrite !in_map_iff. intros (u & E & Hin). apply filter_In in Hin.
  exists u. tauto.
Qed.

(** With unique ids, a run reports one encryption for each unprotected
    row and none for any other row. *)
Lemma encryptions_of_run (us : list user) (u : user) :
  NoDup (map id us) -> In u us ->
  encryptions (id u) (map LogEncrypted (map id (filter unprotected us)))
  = if unprotected u then 1%nat else 0%nat.
Proof.
  induction us as [|v rest IH]; [intros _ []|].
  cbn [map filter]. intros Hnd Hin.
  inversion Hnd as [|? ? Hnotin Hnd']; subst.
  assert (Hrest : forall x, ~ In x (map id rest) ->
            encryptions x (map LogEncrypted (map id (filter unprotected rest))) = 0%nat).
  { intros x Hx. apply encryptions_absent. intros H. apply Hx.
    apply filter_ids_subset. exact H. }
  destruct Hin as [E|Hin].
  - subst v. destruct (unprotected u).
    + cbn [map]. change (LogEncrypted (id u) :: ?l) with ([LogEncrypted (id u)] ++ l).
      rewrite encryptions_app, (Hrest _ Hnotin).
      unfold encryptions. cbn [filter]. rewrite Z.eqb_refl. reflexivity.
    + apply Hrest. exact Hnotin.
  - assert (Hne : id v <> id u).
    { intros E. apply Hnotin. rewrite E. apply in_map. exact Hin. }
    destruct (unprotected v).
    + cbn [map]. change (LogEncrypted (id v) :: ?l) with ([LogEncrypted (id v)] ++ l).
      rewrite encryptions_app, (IH Hnd' Hin).
      unfold encryptions at 1. cbn [filter].
      apply Z.eqb_neq in Hne. rewrite Hne. reflexivity.
    + apply IH; assumption.
Qed.

(** C5, as amended. The sweep takes a value for already protected exactly
    when it is NULL, empty, or contains a [":"]: a test for the
    delimiter, not for the shape of an envelope. Rows taken for protected
    are left as they are; each other row is encrypted once, and the
    envelope replaces the value under the same id. The ids are assumed
    unique and read as they are stored (each a JavaScript number as it
    stands, as every id up to [2 ^ 53] is), and the provider to encrypt
    under a key of 32 bytes. *)
Theorem sweep_classifies_by_colon (w : world) :
  seals gcm_cipher (key ENCRYPTION_KEY) ->
  List.length (key ENCRYPTION_KEY) = 32%nat ->
  NoDup (map id (users w)) ->
  Forall exact_number (map id (users w)) ->
  exists w',
    encrypt_ssns gcm_cipher ENCRYPTION_KEY w = (None, w') /\
    Forall2 (converted gcm_cipher ENCRYPTION_KEY) (users w) (users w') /\
    (forall u, In u (users w) ->
       encryptions (id u) (console w') =
       (encryptions (id u) (console w) + if unprotected u then 1 else 0)%nat) /\
    (forall u, unprotected u = false <->
       ssn u = None \/ ssn u = Some [] \/
       exists s, ssn u = Some s /\ includes s colon = true).
Proof.
  intros Hseals Hkey Hnd Hex.
  destruct (encrypt_ssns_converts w Hseals Hkey Hnd Hex)
    as (w' & last & Hr & Hconv & Hlog & Hlast).
  exists w'. split; [exact Hr|]. split; [exact Hconv|]. split.
  - intros u Hin. rewrite Hlog.
    change (LogBanner :: ?l) with ([LogBanner] ++ l).
    rewrite !encryptions_app, (encryptions_of_run (users w) u Hnd Hin).
    destruct Hlast; subst last; cbn; lia.
  - apply unprotected_false.
Qed.

(* ------------------------------------------------------------------ *)
(** ** A second run *)

Lemma forEach_protected (us : list user) (w : world) :
  Forall (fun u => unprotected u = false) us ->
  forEach gcm_cipher ENCRYPTION_KEY us w = (None, w).
Proof.
  induction 1 as [|u rest Hu _ IH]; [reflexivity|].
  rewrite forEach_cons, (visit_protected u w Hu). exact IH.
Qed.

Lemma converted_protected (u u' : user) :
  converted gcm_cipher ENCRYPTION_KEY u u' -> unprotected u' = false.
Proof.
  unfold converted. destruct (unprotected u) eqn:Hu.
  - intros (_ & s & iv & ct & tag & _ & _ & _ & Hs).
    unfold unprotected. rewrite Hs, envelope_includes_colon. apply andb_false_r.
  - intros E. subst u'. exact Hu.
Qed.

Lemma converted_all_protected (us us' : list user) :
  Forall2 (converted gcm_cipher ENCRYPTION_KEY) us us' ->
  Forall (fun u => unprotected u = false) us'.
Proof.
  induction 1 as [|u u' us us' Hc _ IH]; constructor;
    eauto using converted_protected.
Qed.

Lemma converted_nth (us us' : list user) (i : nat) (u : user) :
  Forall2 (converted gcm_cipher ENCRYPTION_KEY) us us' -> nth_error us i = Some u ->
  exists u', nth_error us' i = Some u' /\ converted gcm_cipher ENCRYPTION_KEY u u'.
Proof.
  intros H. revert i. induction H as [|v v' us us' Hc _ IH]; intros i Hi.
  - destruct i; discriminate Hi.
  - destruct i as [|i]; cbn [nth_error] in *.
    + injection Hi as Hi. subst v. exists v'. auto.
    + apply IH. exact Hi.
Qed.

(** A run over a table whose rows are all taken for protected changes
    neither the table nor the random source, and reports no encryption. *)
Lemma encrypt_ssns_protected (w : world) :
  Forall (fun u => unprotected u = false) (users w) ->
  exists last,
    encrypt_ssns gcm_cipher ENCRYPTION_KEY w =
    (None, {| users := users w; rng := rng w;
              console := console w ++ [LogBanner; last] |}) /\
    (last = LogNoUsers \/ last = LogAllEncrypted).
Proof.
  intros Hall. apply select_all_protected in Hall.
  unfold encrypt_ssns. cbn [log users].
  destruct (select_all (users w)) as [|u rest] eqn:E.
  - exists LogNoUsers. split; [|auto]. unfold log. cbn [users rng console].
    rewrite <- app_assoc. reflexivity.
  - rewrite (forEach_protected (u :: rest) (log LogBanner w) Hall).
    exists LogAllEncrypted. split; [|auto]. unfold log. cbn [users rng console].
    rewrite <- app_assoc. reflexivity.
Qed.

(** C6, as amended. Running the sweep a second time leaves the table as
    the first run left it: no record is encrypted again, no entropy is
    drawn and no error is raised. Every value the sweep takes for
    plaintext (not empty, no [":"] in it) that is well-formed text is, in
    the final table, an envelope that decrypts to it; every other value
    is as it was. The ids are assumed unique and read as they are stored
    (each a JavaScript number as it stands, as every id up to [2 ^ 53]
    is), and the provider to encrypt and decrypt under a key of 32
    bytes. *)
Theorem sweep_idempotent (w : world) :
  seals gcm_cipher (key ENCRYPTION_KEY) ->
  opens gcm_cipher gcm_decipher (key ENCRYPTION_KEY) ->
  List.length (key ENCRYPTION_KEY) = 32%nat ->
  NoDup (map id (users w)) ->
  Forall exact_number (map id (users w)) ->
  exists w1 w2,
    encrypt_ssns gcm_cipher ENCRYPTION_KEY w = (None, w1) /\
    encrypt_ssns gcm_cipher ENCRYPTION_KEY w1 = (None, w2) /\
    users w2 = users w1 /\ rng w2 = rng w1 /\
    (forall uid, encryptions uid (console w2) = encryptions uid (console w1)) /\
    (forall i u s,
        nth_error (users w) i = Some u -> ssn u = Some s ->
        unprotected u = true ->
        Forall code_unit s -> Utf8.isWellFormed s = true ->
        exists u' s',
          nth_error (users w2) i = Some u' /\ id u' = id u /\
          ssn u' = Some s' /\
          decrypt gcm_decipher ENCRYPTION_KEY s' = Ok s) /\
    (forall i u,
        nth_error (users w) i = Some u -> unprotected u = false ->
        nth_error (users w2) i = Some u).
Proof.
  intros Hseals Hopens Hkey Hnd Hex.
  destruct (encrypt_ssns_converts w Hseals Hkey Hnd Hex)
    as (w1 & last1 & Hr1 & Hconv & _).
  destruct (encrypt_ssns_protected w1 (converted_all_protected _ _ Hconv))
    as (last2 & Hr2 & Hlast2).
  eexists w1, _. split; [exact Hr1|]. split; [exact Hr2|].
  cbn [users rng console]. split; [reflexivity|]. split; [reflexivity|].
  split; [|split].
  - intros uid. rewrite encryptions_app.
    destruct Hlast2; subst last2; cbn; lia.
  - intros i u s Hi Hs Hu Hcu Hwf.
    destruct (converted_nth _ _ i u Hconv Hi) as (u' & Hi' & Hc).
    unfold converted in Hc. rewrite Hu in Hc.
    destruct Hc as (Hid & s0 & iv & ct & tag & Hs0 & _ & Hc & Hs').
    rewrite Hs in Hs0. injection Hs0 as Hs0. subst s0.
    exists u', (envelope iv ct tag). repeat split; try assumption.
    apply (decrypt_encrypted gcm_cipher gcm_decipher ENCRYPTION_KEY); assumption.
  - intros i u Hi Hu.
    destruct (converted_nth _ _ i u Hconv Hi) as (u' & Hi' & Hc).
    unfold converted in Hc. rewrite Hu in Hc. subst u'. exact Hi'.
Qed.

End SweepProperties.

(* ------------------------------------------------------------------ *)
(** ** The sweep on a concrete table *)

(** The ids of the legacy table are unique. *)
Lemma legacy_ids_unique : NoDup (map id (users legacy_world)).
Proof.
  cbn. repeat constructor; cbn; intros H;
    repeat (destruct H as [H|H]; [discriminate H|]); exact H.
Qed.

(** The ids of the legacy table are read as they are stored. *)
Lemma legacy_ids_exact : Forall exact_number (map id (users legacy_world)).
Proof. cbn. repeat constructor. Qed.

(** Three runs over the legacy table leave row 2, ["12:34"], as it is. *)
Lemma sweep_skips_values_with_colon_at_sample :
  nth_error (users (sweeps Reference.cipher None 3 legacy_world)) 1
  = Some {| id := 2; ssn := Some (js "12:34") |} /\
  encryptions 2 (console (sweeps Reference.cipher None 3 legacy_world))
  = encryptions 2 (console legacy_world).
Proof.
  apply (sweep_skips_values_with_colon Reference.cipher None legacy_world 3 1
           {| id := 2; ssn := Some (js "12:34") |} (js "12:34")
           legacy_ids_unique legacy_ids_exact).
  - reflexivity.
  - reflexivity.
  - reflexivity.
Defined.

(** C10 as stated fails: the ids [2 ^ 53] and [2 ^ 53 + 1] are distinct in
    the table, but the second is read as the number [2 ^ 53]. The run
    takes the first row, ["12:34"], for protected, encrypts the value of
    the second row and writes the envelope over the first row; the second
    row is left in plaintext. *)
Lemma value_with_colon_overwritten :
  NoDup (map id (users wide_ids_world)) /\
  nth_error (users wide_ids_world) 0
  = Some {| id := 2 ^ 53; ssn := Some (js "12:34") |} /\
  includes (js "12:34") colon = true /\
  to_number (2 ^ 53 + 1) = 2 ^ 53 /\
  exists enc,
    nth_error (users (sweeps Reference.cipher None 1 wide_ids_world)) 0
    = Some {| id := 2 ^ 53; ssn := Some enc |} /\
    decrypt Reference.decipher None enc = Ok (js "123-45-6789") /\
    nth_error (users (sweeps Reference.cipher None 1 wide_ids_world)) 1
    = Some {| id := 2 ^ 53 + 1; ssn := Some (js "123-45-6789") |} /\
    encryptions (2 ^ 53) (console (sweeps Reference.cipher None 1 wide_ids_world))
    = 1%nat.
Proof.
  split.
  { cbn. repeat constructor; cbn; intros H;
      repeat (destruct H as [H|H]; [discriminate H|]); exact H. }
  split; [reflexivity|]. split; [reflexivity|]. split; [reflexivity|].
  eexists. repeat split; vm_compute; reflexivity.
Qed.

(** One run over the legacy table. *)
Lemma sweep_classifies_by_colon_at_sample :
  exists w',
    encrypt_ssns Reference.cipher None legacy_world = (None, w') /\
    Forall2 (converted Reference.cipher None) (users legacy_world) (users w') /\
    (forall u, In u (users legacy_world) ->
       encryptions (id u) (console w') =
       (encryptions (id u) (console legacy_world)
        + if unprotected u then 1 else 0)%nat) /\
    (forall u, unprotected u = false <->
       ssn u = None \/ ssn u = Some [] \/
       exists s, ssn u = Some s /\ includes s colon = true).
Proof.
  apply (sweep_classifies_by_colon Reference.cipher None legacy_world
           (ReferenceFacts.meets_seals _)).
  - reflexivity.
  - exact legacy_ids_unique.
  - exact legacy_ids_exact.
Defined.

(** C5 as stated fails: a value with colons that is no envelope is taken
    for protected and left as it is. *)
Lemma colon_value_taken_for_protected :
  envelope_shape (js "123:45:6789") = false /\
  unprotected {| id := 7; ssn := Some (js "123:45:6789") |} = false /\
  users (snd (encrypt_ssns Reference.cipher None
                {| users := [ {| id := 7; ssn := Some (js "123:45:6789") |} ];
                   rng := Reference.counting; console := [] |}))
  = [ {| id := 7; ssn := Some (js "123:45:6789") |} ].
Proof. repeat split; vm_compute; reflexivity. Qed.

(** Two runs over the legacy table. *)
Lemma sweep_idempotent_at_sample :
  exists w1 w2,
    encrypt_ssns Reference.cipher None legacy_world = (None, w1) /\
    encrypt_ssns Reference.cipher None w1 = (None, w2) /\
    users w2 = users w1 /\ rng w2 = rng w1 /\
    (forall uid, encryptions uid (console w2) = encryptions uid (console w1)) /\
    (forall i u s,
        nth_error (users legacy_world) i = Some u -> ssn u = Some s ->
        unprotected u = true ->
        Forall code_unit s -> Utf8.isWellFormed s = true ->
        exists u' s',
          nth_error (users w2) i = Some u' /\ id u' = id u /\
          ssn u' = Some s' /\
          decrypt Reference.decipher None s' = Ok s) /\
    (forall i u,
        nth_error (users legacy_world) i = Some u -> unprotected u = false ->
        nth_error (users w2) i = Some u).
Proof.
  apply (sweep_idempotent Reference.cipher Reference.decipher None legacy_world
           (ReferenceFacts.meets_seals _) (ReferenceFacts.meets_opens _)).
  - reflexivity.
  - exact legacy_ids_unique.
  - exact legacy_ids_exact.
Defined.

(** C6 as stated fails: a plaintext value with a colon in it is never
    encrypted; after two runs it is still there, it is no envelope, and
    [decrypt] throws on it. *)
Lemma plaintext_with_colon_never_encrypted :
  nth_error (users (sweeps Reference.cipher None 2 legacy_world)) 1
  = Some {| id := 2; ssn := Some (js "12:34") |} /\
  envelope_shape (js "12:34") = false /\
  decrypt Reference.decipher None (js "12:34") = Throw ERR_INVALID_ARG_TYPE.
Proof. repeat split; vm_compute; reflexivity. Qed.

(* ================================================================== *)
(** * Further properties of [encrypt] and [decrypt] *)

Module Utf8Length.
Import Utf8.

Lemma encode_code_point_length (cp : Z) :
  (1 <= List.length (encode_code_point cp))%nat.
Proof.
  unfold encode_code_point.
  destruct (cp <? 128); [|destruct (cp <? 2048); [|destruct (cp <? 65536)]];
    cbn [List.length]; lia.
Qed.

Lemma encode_pair_length (c d : Z) :
  is_high_surrogate c = true -> is_low_surrogate d = true ->
  List.length (encode_code_point (pair_code_point c d)) = 4%nat.
Proof.
  intros Hc Hd.
  destruct (Utf8Facts.surrogates c d Hc Hd) as [[Hr _] He].
  unfold encode_code_point.
  assert (H : 0x10000 <= pair_code_point c d).
  { unfold is_high_surrogate, is_low_surrogate, pair_code_point in *.
    apply andb_true_iff in Hc. apply andb_true_iff in Hd.
    rewrite !Z.leb_le in Hc, Hd. lia. }
  rewrite (proj2 (Z.ltb_ge _ _)) by lia.
  rewrite (proj2 (Z.ltb_ge _ _)) by lia.
  rewrite (proj2 (Z.ltb_ge _ _)) by lia.
  reflexivity.
Qed.

(** The encoding has at least as many bytes as the string has units. *)
Lemma encode_units_length (s : jsstring) :
  (List.length s <= List.length (encode_units s))%nat.
Proof.
  induction s as [|c rest IH1 IH2] using Utf8Facts.units_ind; [reflexivity|].
  cbn [encode_units List.length].
  pose proof (encode_code_point_length replacement) as Hrep.
  pose proof (encode_code_point_length c) as Hc.
  destruct (is_high_surrogate c) eqn:Hh.
  - destruct rest as [|d rest']; [cbn [List.length]; lia|].
    destruct (is_low_surrogate d) eqn:Hd.
    + rewrite length_app, (encode_pair_length c d Hh Hd).
      pose proof (IH2 d rest' eq_refl). cbn [List.length]. lia.
    + rewrite length_app. lia.
  - destruct (is_low_surrogate c); rewrite length_app; lia.
Qed.

(** Bytes and units are equally many exactly when every unit is ASCII. *)
Lemma encode_units_length_ascii (s : jsstring) :
  Forall code_unit s ->
  (List.length (encode_units s) = List.length s <-> Forall (fun c => c < 0x80) s).
Proof.
  induction s as [|c rest IH1 IH2] using Utf8Facts.units_ind.
  - intros _. split; [constructor|reflexivity].
  - intros Hu. inversion Hu as [|? ? Hc Hrest]; subst.
    unfold code_unit in Hc.
    pose proof (encode_units_length rest) as Hlen.
    cbn [encode_units List.length].
    destruct (is_high_surrogate c) eqn:Hh.
    + assert (Hc' : 0x80 <= c).
      { unfold is_high_surrogate in Hh. apply andb_true_iff in Hh.
        rewrite !Z.leb_le in Hh. lia. }
      split; [|intros H; inversion H; lia].
      intros H. exfalso.
      destruct rest as [|d rest']; [cbn [encode_code_point List.length] in H; discriminate H|].
      destruct (is_low_surrogate d) eqn:Hd.
      * rewrite length_app, (encode_pair_length c d Hh Hd) in H.
        pose proof (encode_units_length rest'). cbn [List.length] in H. lia.
      * rewrite length_app in H.
        change (List.length (encode_code_point replacement)) with 3%nat in H. lia.
    + destruct (is_low_surrogate c) eqn:Hl.
      * assert (Hc' : 0x80 <= c).
        { unfold is_low_surrogate in Hl. apply andb_true_iff in Hl.
          rewrite !Z.leb_le in Hl. lia. }
        split; [|intros H; inversion H; lia].
        intros H. exfalso. rewrite length_app in H.
        change (List.length (encode_code_point replacement)) with 3%nat in H. lia.
      * rewrite length_app. unfold encode_code_point.
        destruct (Z.ltb_spec c 128) as [H1|H1].
        -- cbn [app List.length]. split.
           ++ intros H. constructor; [exact H1|]. apply (IH1 Hrest). lia.
           ++ intros H. inversion H; subst.
              assert (List.length (encode_units rest) = List.length rest)
                by (apply (IH1 Hrest); assumption).
              lia.
        -- split; [|intros H; inversion H; lia].
           intros H. exfalso.
           destruct (c <? 2048); [|destruct (c <? 65536)];
             cbn [List.length] in H; lia.
Qed.

End Utf8Length.

Lemma digit_lower_hex (n : Z) :
  0 <= n < 16 -> lower_hex_digit (Hex.digit n) = true.
Proof.
  intros Hn. unfold lower_hex_digit, Hex.digit.
  destruct (Z.ltb_spec n 10); Utf8Facts.ztests; reflexivity.
Qed.

Lemma encode_lower_hex (bs : list byte) :
  forallb lower_hex_digit (Hex.encode bs) = true.
Proof.
  induction bs as [|b bs IH]; [reflexivity|].
  destruct (HexFacts.nibbles b) as (Hhi & Hlo & _).
  cbn [Hex.encode forallb].
  rewrite (digit_lower_hex _ Hhi), (digit_lower_hex _ Hlo), IH. reflexivity.
Qed.

Lemma forallb_weaken (p q : Z -> bool) (s : jsstring) :
  (forall c, p c = true -> q c = true) ->
  forallb p s = true -> forallb q s = true.
Proof.
  intros Hpq. rewrite !forallb_forall. auto.
Qed.

Lemma envelope_units (iv ct tag : list byte) :
  forallb envelope_unit (envelope iv ct tag) = true.
Proof.
  assert (Hhex : forall bs, forallb envelope_unit (Hex.encode bs) = true).
  { intros bs. apply (forallb_weaken lower_hex_digit); [|apply encode_lower_hex].
    intros c Hc. unfold envelope_unit. rewrite Hc. reflexivity. }
  unfold envelope. cbn [join].
  rewrite forallb_app. cbn [forallb]. rewrite forallb_app. cbn [forallb].
  rewrite !Hhex. reflexivity.
Qed.

Lemma envelope_length (iv ct tag : list byte) :
  List.length (envelope iv ct tag)
  = (2 * List.length iv + 2 * List.length ct + 2 * List.length tag + 2)%nat.
Proof.
  unfold envelope. cbn [join].
  rewrite length_app. cbn [List.length]. rewrite length_app. cbn [List.length].
  rewrite !HexFacts.encode_length. lia.
Qed.

(** [split] goes through a renaming of units that keeps the separator
    apart. *)
Lemma upper_hex_colon (c : Z) :
  ((if (97 <=? c) && (c <=? 102) then c - 32 else c) =? colon) = (c =? colon).
Proof.
  unfold colon.
  destruct (Z.leb_spec 97 c); destruct (Z.leb_spec c 102); cbn [andb];
    try reflexivity.
  rewrite (proj2 (Z.eqb_neq _ _)) by lia.
  rewrite (proj2 (Z.eqb_neq _ _)) by lia. reflexivity.
Qed.

Lemma unhex_upper_digit (n : Z) :
  0 <= n < 16 ->
  Hex.unhex (if (97 <=? Hex.digit n) && (Hex.digit n <=? 102)
             then Hex.digit n - 32 else Hex.digit n) = Some n.
Proof.
  intros Hn. unfold Hex.digit.
  destruct (Z.ltb_spec n 10).
  - Utf8Facts.ztests. rewrite HexFacts.unhex_low by lia.
    unfold Hex.digit_value. Utf8Facts.ztests. f_equal. lia.
  - Utf8Facts.ztests. rewrite HexFacts.unhex_low by lia.
    unfold Hex.digit_value. Utf8Facts.ztests. f_equal. lia.
Qed.

(** Hex in upper case decodes to the same bytes. *)
Lemma decode_upper_hex (bs : list byte) :
  Hex.decode (upper_hex (Hex.encode bs)) = bs.
Proof.
  unfold upper_hex. induction bs as [|b bs IH]; [reflexivity|].
  destruct (HexFacts.nibbles b) as (Hhi & Hlo & Hsum).
  cbn [Hex.encode map Hex.decode].
  rewrite (unhex_upper_digit _ Hhi), (unhex_upper_digit _ Hlo).
  rewrite Hsum, BytesFacts.of_to_Z, IH. reflexivity.
Qed.

Section FurtherEncryption.

Variable gcm_cipher :
  list byte -> list byte -> list byte -> result (list byte * list byte).
Variable gcm_decipher :
  list byte -> list byte -> list byte -> list byte -> result (list byte).
Variable ENCRYPTION_KEY : option jsstring.

(** X1. With a working key, the string [encrypt] returns is 58 units
    longer than twice the UTF-8 length of the plaintext, and is made of
    lower-case hex digits and [":"] only. *)
Theorem envelope_size_and_alphabet (plain : jsstring) (e : entropy) :
  seals gcm_cipher (key ENCRYPTION_KEY) ->
  List.length (key ENCRYPTION_KEY) = 32%nat ->
  exists s,
    fst (encrypt gcm_cipher ENCRYPTION_KEY plain e) = Ok s /\
    List.length s = (58 + 2 * List.length (Utf8.encode plain))%nat /\
    forallb envelope_unit s = true.
Proof.
  intros Hseals Hkey.
  destruct (encrypt_succeeds gcm_cipher ENCRYPTION_KEY plain e Hseals Hkey)
    as (ct & tag & _ & Hlc & Hlt & He).
  exists (envelope (nonce e) ct tag). rewrite He. split; [reflexivity|].
  split; [|apply envelope_units].
  rewrite envelope_length, nonce_length, Hlc, Hlt. lia.
Qed.

(** X2. With a working key, what [encrypt] returns is never the plaintext
    itself: it is always longer. *)
Theorem envelope_never_plaintext (plain : jsstring) (e : entropy) (s : jsstring) :
  seals gcm_cipher (key ENCRYPTION_KEY) ->
  List.length (key ENCRYPTION_KEY) = 32%nat ->
  fst (encrypt gcm_cipher ENCRYPTION_KEY plain e) = Ok s ->
  (List.length plain < List.length s)%nat /\ s <> plain.
Proof.
  intros Hseals Hkey Hs.
  destruct (encrypt_succeeds gcm_cipher ENCRYPTION_KEY plain e Hseals Hkey)
    as (ct & tag & _ & Hlc & Hlt & He).
  rewrite He in Hs. cbn [fst] in Hs. injection Hs as Hs. subst s.
  assert (Hlt' : (List.length plain < List.length (envelope (nonce e) ct tag))%nat).
  { rewrite envelope_length, nonce_length, Hlc, Hlt.
    unfold Utf8.encode. rewrite length_map.
    pose proof (Utf8Length.encode_units_length plain). lia. }
  split; [exact Hlt'|]. intros E. rewrite E in Hlt'. lia.
Qed.

(** X3. [decrypt] does not mind the case of the hex digits: on an
    envelope put in upper case it does what it does on the envelope. *)
Theorem decrypt_accepts_upper_case (plain : jsstring) (e : entropy) (s : jsstring) :
  fst (encrypt gcm_cipher ENCRYPTION_KEY plain e) = Ok s ->
  decrypt gcm_decipher ENCRYPTION_KEY (upper_hex s)
  = decrypt gcm_decipher ENCRYPTION_KEY s.
Proof.
  intros Hs.
  destruct (encrypt_inv gcm_cipher ENCRYPTION_KEY plain e s Hs)
    as (ct & tag & _ & Henv).
  subst s. rewrite decrypt_envelope. unfold decrypt, upper_hex.
  rewrite (split_map _ colon _ upper_hex_colon), split_envelope.
  cbn [map nth_error Buffer_from_hex bind].
  fold (upper_hex (Hex.encode (nonce e))). fold (upper_hex (Hex.encode ct)).
  fold (upper_hex (Hex.encode tag)).
  rewrite !decode_upper_hex. reflexivity.
Qed.

(** X4. A value the sweep takes for plaintext is never taken for an
    envelope by [decrypt]: [decrypt] throws a [TypeError] on it before
    the provider is called, so a row that was not migrated cannot be read
    back as if it were. *)
Theorem unmigrated_value_rejected (u : user) (s : jsstring) :
  ssn u = Some s -> unprotected u = true ->
  decrypt gcm_decipher ENCRYPTION_KEY s = Throw ERR_INVALID_ARG_TYPE.
Proof.
  intros Hs Hu. unfold unprotected in Hu. rewrite Hs in Hu.
  apply andb_true_iff in Hu. destruct Hu as [_ Hc].
  apply negb_true_iff in Hc.
  unfold decrypt. rewrite (split_plain _ _ Hc). reflexivity.
Qed.

End FurtherEncryption.

(** X5. The key has as many bytes as the configured string has units
    exactly when the string is all ASCII; it never has fewer. A key of 32
    characters is therefore a key of 32 bytes only if it is ASCII. *)
Theorem key_bytes_and_units (s : jsstring) :
  Forall code_unit s ->
  (List.length s <= List.length (key (Some s)))%nat /\
  (List.length (key (Some s)) = List.length s <-> Forall (fun c => c < 0x80) s).
Proof.
  intros Hu. unfold key, nullish, Utf8.encode. rewrite length_map. split.
  - apply Utf8Length.encode_units_length.
  - apply Utf8Length.encode_units_length_ascii. exact Hu.
Qed.

(* ================================================================== *)
(** * Further properties of the sweep *)

Section FurtherSweep.

Variable gcm_cipher :
  list byte -> list byte -> list byte -> result (list byte * list byte).
Variable gcm_decipher :
  list byte -> list byte -> list byte -> list byte -> result (list byte).
Variable ENCRYPTION_KEY : option jsstring.

Lemma encrypt_refused (plain : jsstring) (e : entropy) :
  checks_key_length gcm_cipher gcm_decipher (key ENCRYPTION_KEY) ->
  List.length (key ENCRYPTION_KEY) <> 32%nat ->
  fst (encrypt gcm_cipher ENCRYPTION_KEY plain e) = Throw ERR_CRYPTO_INVALID_KEYLEN.
Proof.
  intros Hcheck Hlen. destruct (Hcheck Hlen) as [Hc _].
  pose proof (Hc (nonce e) (Utf8.encode plain) (nonce_length e)) as H.
  unfold encrypt, nonce in *. destruct (randomBytes 12 e) as [iv e'].
  cbn [fst] in H. rewrite H. reflexivity.
Qed.

(* ------------------------------------------------------------------ *)
(** ** A key the provider refuses *)

Lemma visit_refused (u : user) (w : world) :
  (forall plain e,
      fst (encrypt gcm_cipher ENCRYPTION_KEY plain e) = Throw ERR_CRYPTO_INVALID_KEYLEN) ->
  unprotected u = true ->
  visit gcm_cipher ENCRYPTION_KEY u w =
  (Some ERR_CRYPTO_INVALID_KEYLEN,
   {| users := users w; rng := snd (randomBytes 12 (rng w)); console := console w |}).
Proof.
  intros Hthrow Hu.
  destruct (unprotected_true u Hu) as (s & Hs & Ht).
  pose proof (Hthrow s (rng w)) as H.
  unfold visit. rewrite Hs, Ht.
  unfold encrypt in *. destruct (randomBytes 12 (rng w)) as [iv e'].
  destruct (gcm_cipher _ _ _) as [[ct tag]|err]; cbn [fst snd] in *.
  - discriminate H.
  - injection H as H. subst err. reflexivity.
Qed.

Lemma forEach_refused (us : list user) (w : world) :
  (forall plain e,
      fst (encrypt gcm_cipher ENCRYPTION_KEY plain e) = Throw ERR_CRYPTO_INVALID_KEYLEN) ->
  forEach gcm_cipher ENCRYPTION_KEY us w =
  if existsb unprotected us
  then (Some ERR_CRYPTO_INVALID_KEYLEN,
        {| users := users w; rng := snd (randomBytes 12 (rng w));
           console := console w |})
  else (None, w).
Proof.
  intros Hthrow. induction us as [|u rest IH]; [reflexivity|].
  rewrite forEach_cons. cbn [existsb]. destruct (unprotected u) eqn:Hu.
  - rewrite (visit_refused u w Hthrow Hu). reflexivity.
  - rewrite (visit_protected gcm_cipher ENCRYPTION_KEY u w Hu). exact IH.
Qed.

(** X6. With a key that is not 32 bytes long the sweep changes no row.
    If some row is unprotected it stops at the first one with the
    provider's [Invalid key length] error, having written only its banner
    to the console; otherwise it completes without error. *)
Theorem sweep_stops_on_refused_key (w : world) :
  checks_key_length gcm_cipher gcm_decipher (key ENCRYPTION_KEY) ->
  List.length (key ENCRYPTION_KEY) <> 32%nat ->
  users (snd (encrypt_ssns gcm_cipher ENCRYPTION_KEY w)) = users w /\
  (existsb unprotected (users w) = true ->
   fst (encrypt_ssns gcm_cipher ENCRYPTION_KEY w) = Some ERR_CRYPTO_INVALID_KEYLEN /\
   console (snd (encrypt_ssns gcm_cipher ENCRYPTION_KEY w)) = console w ++ [LogBanner]) /\
  (existsb unprotected (users w) = false ->
   fst (encrypt_ssns gcm_cipher ENCRYPTION_KEY w) = None).
Proof.
  intros Hcheck Hlen.
  assert (Hthrow : forall plain e,
    fst (encrypt gcm_cipher ENCRYPTION_KEY plain e) = Throw ERR_CRYPTO_INVALID_KEYLEN)
    by (intros; apply encrypt_refused; assumption).
  rewrite <- (select_all_existsb (users w)).
  unfold encrypt_ssns. cbn [log users].
  destruct (select_all (users w)) as [|u rest] eqn:E.
  - cbn [existsb fst snd users log]. repeat split; discriminate.
  - rewrite (forEach_refused (u :: rest) _ Hthrow).
    destruct (existsb unprotected (u :: rest)); cbn [fst snd users console log];
      repeat split; discriminate.
Qed.

(* ------------------------------------------------------------------ *)
(** ** What a run can do to a row, whatever the provider *)

Lemma kept_refl (u : user) : kept u u.
Proof. split; auto. Qed.

Lemma kept_trans (u u' u'' : user) : kept u u' -> kept u' u'' -> kept u u''.
Proof.
  intros [H1 H2] [H3 H4]. split; [congruence|].
  destruct H4 as [E|H4]; [subst u''; exact H2|right; exact H4].
Qed.

Lemma Forall2_kept_refl (us : list user) : Forall2 kept us us.
Proof. induction us; constructor; auto using kept_refl. Qed.

Lemma Forall2_kept_trans (a b c : list user) :
  Forall2 kept a b -> Forall2 kept b c -> Forall2 kept a c.
Proof.
  intros H. revert c. induction H as [|x y a b Hxy _ IH]; intros c Hc.
  - inversion Hc. constructor.
  - inversion Hc as [|? z ? c' Hyz Hbc]; subst.
    constructor; eauto using kept_trans.
Qed.

Lemma update_run_kept (enc : jsstring) (uid : Z) (table : list user) :
  includes enc colon = true -> Forall2 kept table (update_run enc uid table).
Proof.
  intros Hc. induction table as [|u table IH]; [constructor|].
  cbn [update_run map]. constructor; [|exact IH].
  destruct (id u =? uid); [|apply kept_refl].
  split; [reflexivity|]. right. exists enc. auto.
Qed.

(** What [encrypt] returns has a [":"] in it, whatever the provider. *)
Lemma encrypt_includes_colon (plain : jsstring) (e : entropy) (s : jsstring) :
  fst (encrypt gcm_cipher ENCRYPTION_KEY plain e) = Ok s -> includes s colon = true.
Proof.
  intros H. destruct (encrypt_inv gcm_cipher ENCRYPTION_KEY plain e s H)
    as (ct & tag & _ & E).
  subst s. apply envelope_includes_colon.
Qed.

Lemma visit_kept (u : user) (w : world) :
  Forall2 kept (users w) (users (snd (visit gcm_cipher ENCRYPTION_KEY u w))).
Proof.
  unfold visit. destruct (ssn u) as [s|]; [|apply Forall2_kept_refl].
  destruct (truthy s && negb (includes s colon)); [|apply Forall2_kept_refl].
  pose proof (encrypt_includes_colon s (rng w)) as Hc.
  destruct (encrypt gcm_cipher ENCRYPTION_KEY s (rng w)) as [[enc|err] e'];
    cbn [fst snd users] in *.
  - apply update_run_kept. apply Hc. reflexivity.
  - apply Forall2_kept_refl.
Qed.

Lemma forEach_kept (us : list user) (w : world) :
  Forall2 kept (users w) (users (snd (forEach gcm_cipher ENCRYPTION_KEY us w))).
Proof.
  revert w. induction us as [|u rest IH]; intros w; [apply Forall2_kept_refl|].
  rewrite forEach_cons. pose proof (visit_kept u w) as Hv.
  destruct (visit gcm_cipher ENCRYPTION_KEY u w) as [[err|] w']; cbn [snd] in *.
  - exact Hv.
  - eapply Forall2_kept_trans; [exact Hv|apply IH].
Qed.

(** X7. Whatever the provider and the key, and whether or not a run ends
    in an error, runs of the sweep never add, remove or reorder rows and
    never change an id; a value they change is replaced by a string with
    a [":"] in it, so that no value is ever erased or set to NULL. *)
Theorem sweep_keeps_rows (w : world) (n : nat) :
  Forall2 kept (users w) (users (sweeps gcm_cipher ENCRYPTION_KEY n w)).
Proof.
  revert w. induction n as [|n IH]; intros w; [apply Forall2_kept_refl|].
  cbn [sweeps]. eapply Forall2_kept_trans; [|apply IH].
  rewrite encrypt_ssns_users.
  apply (forEach_kept (select_all (users w)) (log LogBanner w)).
Qed.

(* ------------------------------------------------------------------ *)
(** ** The random bytes a run draws *)

Lemma forEach_entropy (us : list user) (w : world) :
  seals gcm_cipher (key ENCRYPTION_KEY) ->
  List.length (key ENCRYPTION_KEY) = 32%nat ->
  tape (rng (snd (forEach gcm_cipher ENCRYPTION_KEY us w))) = tape (rng w) /\
  cursor (rng (snd (forEach gcm_cipher ENCRYPTION_KEY us w)))
  = (cursor (rng w) + 12 * List.length (filter unprotected us))%nat.
Proof.
  intros Hseals Hkey. revert w.
  induction us as [|u rest IH]; intros w; [cbn; split; [reflexivity|lia]|].
  rewrite forEach_cons. cbn [filter]. destruct (unprotected u) eqn:Hu.
  - destruct (visit_unprotected gcm_cipher ENCRYPTION_KEY u w Hseals Hkey Hu)
      as (s & ct & tag & _ & _ & Hv).
    rewrite Hv. destruct (IH {|
      users := update_run (envelope (nonce (rng w)) ct tag) (id u) (users w);
      rng := snd (randomBytes 12 (rng w));
      console := console w ++ [LogEncrypted (id u)] |}) as [Ht Hc].
    rewrite Ht, Hc. cbn [rng snd randomBytes tape cursor List.length].
    split; [reflexivity|lia].
  - rewrite (visit_protected gcm_cipher ENCRYPTION_KEY u w Hu). apply IH.
Qed.

(** X8. With a working key, a run draws exactly twelve random bytes for
    each row it encrypts and none for any other row: the random source
    ends twelve bytes further for each unprotected row of the table. *)
Theorem sweep_draws_twelve_bytes_per_row (w : world) :
  seals gcm_cipher (key ENCRYPTION_KEY) ->
  List.length (key ENCRYPTION_KEY) = 32%nat ->
  tape (rng (snd (encrypt_ssns gcm_cipher ENCRYPTION_KEY w))) = tape (rng w) /\
  cursor (rng (snd (encrypt_ssns gcm_cipher ENCRYPTION_KEY w)))
  = (cursor (rng w) + 12 * List.length (filter unprotected (users w)))%nat.
Proof.
  intros Hseals Hkey.
  pose proof (forEach_entropy (select_all (users w)) (log LogBanner w) Hseals Hkey)
    as H.
  rewrite select_all_filter in H.
  unfold encrypt_ssns. cbn [log users rng] in *.
  destruct (select_all (users w)) as [|u rest] eqn:E.
  - cbn [snd log rng]. exact H.
  - destruct (forEach _ _ _ _) as [[err|] w']; cbn [snd log rng] in *; exact H.
Qed.

End FurtherSweep.

(* ================================================================== *)
(** * The password rules *)

Module PasswordFacts.
Import Password.

Lemma string_eqb_eq (a b : jsstring) : string_eqb a b = true -> a = b.
Proof.
  revert b. induction a as [|x a IH]; intros [|y b] H; try discriminate H.
  - reflexivity.
  - cbn [string_eqb] in H. apply andb_true_iff in H. destruct H as [Hx Ha].
    apply Z.eqb_eq in Hx. rewrite Hx, (IH b Ha). reflexivity.
Qed.

Lemma test_In (class : Z -> bool) (value : jsstring) :
  test class value = true <-> exists c, In c value /\ class c = true.
Proof. apply existsb_exists. Qed.

(** No common password has a symbol in it. *)
Lemma common_without_symbol (p : jsstring) (c : Z) :
  In p commonPasswords -> In c p -> symbol c = false.
Proof.
  intros Hp Hc. cbn in Hp.
  destruct Hp as [E|[E|[E|[]]]]; subst p; cbn in Hc;
    repeat (destruct Hc as [E|Hc]; [subst c; reflexivity|]); contradiction.
Qed.

(** X9. The form and the schema accept the same passwords: at least
    eight units with a digit, an upper-case and a lower-case ASCII letter
    and one of the listed symbols. The check against common passwords
    never rejects a value the other checks accept. [toLowerCase] is
    assumed to keep the listed symbols of a string. *)
Theorem form_accepts_what_schema_accepts
    (toLowerCase : jsstring -> jsstring) (value : jsstring) :
  (forall s c, symbol c = true -> In c s -> In c (toLowerCase s)) ->
  form_accepts toLowerCase value = schema_accepts value.
Proof.
  intros Hkeeps. unfold form_accepts, schema_accepts.
  destruct (Nat.leb 8 (List.length value)) eqn:Hlen;
    [|rewrite andb_false_r; reflexivity].
  assert (Ht : truthy value = true).
  { destruct value; [discriminate Hlen|reflexivity]. }
  rewrite Ht. cbn [andb].
  destruct (hasSymbol value) eqn:Hsym; [|rewrite !andb_false_r; reflexivity].
  assert (Hn : notCommon toLowerCase value = true).
  { unfold notCommon. apply negb_true_iff.
    destruct (existsb _ commonPasswords) eqn:E; [|reflexivity].
    apply existsb_exists in E. destruct E as (p & Hp & Heq).
    apply string_eqb_eq in Heq.
    apply test_In in Hsym. destruct Hsym as (c & Hc & Hs).
    pose proof (Hkeeps value c Hs Hc) as Hin. rewrite Heq in Hin.
    rewrite (common_without_symbol p c Hp Hin) in Hs. discriminate Hs. }
  rewrite Hn. reflexivity.
Qed.

Lemma ascii_lower_keeps_symbols (s : jsstring) (c : Z) :
  symbol c = true -> In c s -> In c (ascii_lower s).
Proof.
  intros Hs Hc. unfold ascii_lower. apply in_map_iff. exists c. split; [|exact Hc].
  replace (upper c) with false; [reflexivity|].
  unfold symbol in Hs. apply existsb_exists in Hs. destruct Hs as (x & Hx & E).
  apply Z.eqb_eq in E. subst x. cbn in Hx.
  repeat (destruct Hx as [E|Hx]; [subst c; reflexivity|]). contradiction.
Qed.

(** The rule on a password that passes and on a common one. *)
Lemma form_accepts_what_schema_accepts_at_sample :
  form_accepts ascii_lower (js "Passw0rd!") = schema_accepts (js "Passw0rd!") /\
  schema_accepts (js "Passw0rd!") = true /\
  schema_accepts (js "password") = false.
Proof.
  split; [|split; reflexivity].
  apply (form_accepts_what_schema_accepts ascii_lower (js "Passw0rd!")
           ascii_lower_keeps_symbols).
Defined.

End PasswordFacts.

(* ================================================================== *)
(** * The age rule *)

Module DateOfBirthFacts.
Import DateOfBirth.

(** X10. The rule accepts a date of birth exactly when the same month and
    day eighteen years later is today or earlier; a string that is no
    date is rejected. *)
Theorem adult_from_eighteenth_birthday (now : calendar) :
  isAdult now None = false /\
  forall birth,
    isAdult now (Some birth) = true <-> on_or_before (years_later 18 birth) now.
Proof.
  split; [reflexivity|]. intros birth.
  unfold isAdult, age, on_or_before, years_later. cbn [getFullYear getMonth getDate].
  rewrite Z.leb_le.
  destruct (Z.ltb_spec (getMonth now) (getMonth birth));
    destruct (Z.eqb_spec (getMonth now) (getMonth birth));
    destruct (Z.ltb_spec (getDate now) (getDate birth));
    cbn [orb andb]; lia.
Qed.

Lemma on_or_before_trans (a b c : calendar) :
  on_or_before a b -> on_or_before b c -> on_or_before a c.
Proof. unfold on_or_before. lia. Qed.

(** X11. Who is accepted on one day is accepted on every later day. *)
Theorem adult_stays_adult (now later : calendar) (birth : option calendar) :
  on_or_before now later ->
  isAdult now birth = true -> isAdult later birth = true.
Proof.
  intros Hlater. destruct birth as [b|]; [|discriminate].
  unfold isAdult, age, on_or_before in *. rewrite !Z.leb_le.
  destruct (Z.ltb_spec (getMonth now) (getMonth b));
    destruct (Z.eqb_spec (getMonth now) (getMonth b));
    destruct (Z.ltb_spec (getDate now) (getDate b));
    destruct (Z.ltb_spec (getMonth later) (getMonth b));
    destruct (Z.eqb_spec (getMonth later) (getMonth b));
    destruct (Z.ltb_spec (getDate later) (getDate b));
    cbn [orb andb]; lia.
Qed.

(** Born on 29 February 2008: accepted on 1 March 2026, and so a year
    later. *)
Lemma adult_stays_adult_at_sample :
  isAdult {| getFullYear := 2027; getMonth := 2; getDate := 1 |}
          (Some {| getFullYear := 2008; getMonth := 1; getDate := 29 |}) = true.
Proof.
  apply (adult_stays_adult {| getFullYear := 2026; getMonth := 2; getDate := 1 |}).
  - unfold on_or_before. cbn. lia.
  - reflexivity.
Defined.

End DateOfBirthFacts.

(* ================================================================== *)
(** * The transaction list *)

Module AccountFacts.
Import Account.

Section HandlerFacts.

Variable transaction : Type.
Variable accountId : transaction -> Z.

(** With unique ids, looking an account up by its id finds it. *)
Lemma account_by_id_unique (accounts : list account) (a : account) :
  NoDup (map account_id accounts) -> In a accounts ->
  account_by_id accounts (account_id a) = Some a.
Proof.
  unfold account_by_id. induction accounts as [|b rest IH]; [intros _ []|].
  cbn [map find In]. intros Hnd Hin.
  inversion Hnd as [|? ? Hnotin Hnd']; subst.
  destruct Hin as [E|Hin].
  - subst b. rewrite Z.eqb_refl. reflexivity.
  - destruct (Z.eqb_spec (account_id b) (account_id a)) as [E|E].
    + exfalso. apply Hnotin. rewrite E. apply in_map. exact Hin.
    + apply IH; assumption.
Qed.

Lemma own_account_found (accounts : list account) (x uid : Z) (a : account) :
  own_account accounts x uid = Some a ->
  In a accounts /\ account_id a = x /\ userId a = uid.
Proof.
  unfold own_account. intros H. apply find_some in H. destruct H as [Hin H].
  apply andb_true_iff in H. rewrite !Z.eqb_eq in H. tauto.
Qed.

Lemma of_account_rows (transactions : list transaction) (x : Z) (t : transaction) :
  In t (of_account accountId transactions x) <-> In t transactions /\ accountId t = x.
Proof. unfold of_account. rewrite filter_In, Z.eqb_eq. reflexivity. Qed.

(** X12. When account ids are unique, the loop that reads the account
    once builds the same array as the loop that queried the account for
    every transaction, and the handler throws [NOT_FOUND] in the same
    cases. *)
Theorem one_query_builds_the_same_array
    (accounts : list account) (transactions : list transaction) (x uid : Z) :
  NoDup (map account_id accounts) ->
  enriched_after accountId accounts transactions x uid
  = enriched_before accountId accounts transactions x uid.
Proof.
  intros Hnd. unfold enriched_after, enriched_before.
  destruct (own_account accounts x uid) as [a|] eqn:Ha; [|reflexivity].
  destruct (own_account_found _ _ _ _ Ha) as (Hin & Hid & _).
  f_equal. unfold enrich, enrich_by_query. apply map_ext_in.
  intros t Ht. apply of_account_rows in Ht. destruct Ht as [_ Ht].
  rewrite Ht, <- Hid, (account_by_id_unique accounts a Hnd Hin). reflexivity.
Qed.

(** X13. The handler builds a list only when the requested account
    belongs to the caller; the list then holds the transactions of that
    account, all of them and no other, in the order of the query, each
    with the type of that account. Otherwise it throws [NOT_FOUND]. *)
Theorem only_own_transactions_listed
    (accounts : list account) (transactions : list transaction) (x uid : Z) :
  match enriched_after accountId accounts transactions x uid with
  | Built rows =>
      exists a,
        In a accounts /\ account_id a = x /\ userId a = uid /\
        map fst rows = of_account accountId transactions x /\
        Forall (fun row => In (fst row) transactions /\ accountId (fst row) = x /\
                           snd row = Some (accountType a)) rows
  | NOT_FOUND =>
      forall a, In a accounts -> account_id a = x -> userId a <> uid
  end.
Proof.
  unfold enriched_after.
  destruct (own_account accounts x uid) as [a|] eqn:Ha.
  - destruct (own_account_found _ _ _ _ Ha) as (Hin & Hid & Hu).
    exists a. repeat split; try assumption.
    + unfold enrich. rewrite map_map. cbn [fst]. apply map_id.
    + unfold enrich. apply Forall_forall. intros row Hrow.
      apply in_map_iff in Hrow. destruct Hrow as (t & E & Ht). subst row.
      apply of_account_rows in Ht. cbn [fst snd]. tauto.
  - intros a Hin Hid Hu. unfold own_account in Ha.
    apply (find_none _ _ Ha) in Hin. rewrite Hid, Hu, !Z.eqb_refl in Hin.
    discriminate Hin.
Qed.

End HandlerFacts.

(** Two accounts and three transfers, a transfer being its account id and
    its amount. *)
Lemma one_query_builds_the_same_array_at_sample :
  enriched_after fst
    [ {| account_id := 1; userId := 7; accountType := js "checking" |};
      {| account_id := 2; userId := 8; accountType := js "savings" |} ]
    [ (1, 100); (2, 50); (1, 25) ] 1 7
  = enriched_before fst
    [ {| account_id := 1; userId := 7; accountType := js "checking" |};
      {| account_id := 2; userId := 8; accountType := js "savings" |} ]
    [ (1, 100); (2, 50); (1, 25) ] 1 7.
Proof.
  apply (one_query_builds_the_same_array (Z * Z)%type fst).
  cbn. repeat constructor; cbn; intros H;
    repeat (destruct H as [H|H]; [discriminate H|]); exact H.
Defined.

End AccountFacts.

(* ================================================================== *)
(** * The connection *)

Module DbFacts.
Import Db.

Lemma run_step (f : step -> runtime -> option connection * runtime)
    (s : step) (rest : list step) (r : runtime) :
  run f (s :: rest) r =
  (match fst (f s r) with
   | Some x => x :: fst (run f rest (snd (f s r)))
   | None => fst (run f rest (snd (f s r)))
   end,
   snd (run f rest (snd (f s r)))).
Proof.
  cbn [run]. destruct (f s r) as [c r']. cbn [fst snd].
  destruct (run f rest r') as [cs r'']. reflexivity.
Qed.

(** Once [globalThis._sqlite] is set, nothing is opened and every
    evaluation exports that connection. *)
Lemma run_shared_set (steps : list step) (r : runtime) (c : connection) :
  _sqlite r = Some c ->
  run shared steps r = (repeat c (evaluations steps), r).
Proof.
  intros Hc. induction steps as [|s rest IH]; [reflexivity|].
  rewrite run_step. destruct s; cbn [shared].
  - rewrite Hc. cbn [fst snd]. rewrite IH. reflexivity.
  - cbn [fst snd]. rewrite IH. reflexivity.
Qed.

(** X14. However often the module is evaluated and [initDb] called, the
    module that keeps its connection in [globalThis] opens one connection
    at most, at the first evaluation, and every evaluation exports that
    same connection. The module as it was opened a connection at every
    evaluation and at every call of [initDb]. *)
Theorem one_connection_for_all_instances (steps : list step) :
  opened (snd (run shared steps fresh)) = Nat.min 1 (evaluations steps) /\
  fst (run shared steps fresh) = repeat 0%nat (evaluations steps) /\
  (forall r, opened (snd (run leaky steps r)) = (opened r + List.length steps)%nat).
Proof.
  assert (Hfirst : shared Evaluate fresh
                   = (Some 0%nat, {| _sqlite := Some 0%nat; opened := 1 |}))
    by reflexivity.
  assert (Hinit : shared InitDb fresh = (None, fresh)) by reflexivity.
  split; [|split].
  - induction steps as [|s rest IH]; [reflexivity|].
    rewrite run_step. destruct s.
    + rewrite Hfirst. cbn [fst snd].
      rewrite (run_shared_set rest {| _sqlite := Some 0%nat; opened := 1 |} 0%nat eq_refl).
      cbn [snd opened evaluations filter List.length]. reflexivity.
    + rewrite Hinit. exact IH.
  - induction steps as [|s rest IH]; [reflexivity|].
    rewrite run_step. destruct s.
    + rewrite Hfirst. cbn [fst snd].
      rewrite (run_shared_set rest {| _sqlite := Some 0%nat; opened := 1 |} 0%nat eq_refl). reflexivity.
    + rewrite Hinit. exact IH.
  - induction steps as [|s rest IH]; intros r; [cbn; lia|].
    rewrite run_step. cbn [snd]. rewrite IH.
    destruct s; cbn [leaky new_Database snd opened List.length]; lia.
Qed.

End DbFacts.

(* ================================================================== *)
(** * The round trip on any string *)

Module Utf8Replacement.
Import Utf8.

Lemma replacement_scalar : scalar replacement.
Proof. unfold scalar, replacement. lia. Qed.

(** What was written for a string is read back as the string made
    well-formed. *)
Lemma run_encode_units_any (s : jsstring) :
  Forall code_unit s -> run initial (encode_units s) = toWellFormed s.
Proof.
  assert (Hrep : forall rest,
    run initial (encode_code_point replacement ++ rest)
    = replacement :: run initial rest).
  { intros rest. rewrite (Utf8Facts.run_code_point _ _ replacement_scalar).
    reflexivity. }
  induction s as [|c rest IH1 IH2] using Utf8Facts.units_ind; [reflexivity|].
  intros Hu. inversion Hu as [|? ? Hc Hrest]; subst.
  cbn [encode_units toWellFormed].
  destruct (is_high_surrogate c) eqn:Hh.
  - destruct rest as [|d rest'].
    + rewrite <- (app_nil_r (encode_code_point replacement)), Hrep. reflexivity.
    + destruct (is_low_surrogate d) eqn:Hd.
      * destruct (Utf8Facts.surrogates c d Hh Hd) as [Hs He].
        rewrite (Utf8Facts.run_code_point _ _ Hs), He.
        inversion Hrest; subst.
        rewrite (IH2 d rest' eq_refl) by assumption. reflexivity.
      * rewrite Hrep, (IH1 Hrest). reflexivity.
  - destruct (is_low_surrogate c) eqn:Hl.
    + rewrite Hrep, (IH1 Hrest). reflexivity.
    + rewrite (Utf8Facts.run_code_point _ _ (Utf8Facts.not_surrogate c Hc Hh Hl)).
      rewrite Utf8Facts.emit_bmp by (unfold code_unit in Hc; lia).
      rewrite (IH1 Hrest). reflexivity.
Qed.

Lemma decode_encode_any (s : jsstring) :
  Forall code_unit s -> decode (encode s) = toWellFormed s.
Proof.
  intros Hu. unfold decode, encode.
  rewrite BytesFacts.map_to_of_Z by (apply Utf8Facts.encode_units_octets; exact Hu).
  apply run_encode_units_any. exact Hu.
Qed.

(** A well-formed string is its own well-formed version, and only such a
    string is. *)
Lemma toWellFormed_fixed (s : jsstring) :
  toWellFormed s = s <-> isWellFormed s = true.
Proof.
  induction s as [|c rest IH1 IH2] using Utf8Facts.units_ind; [split; reflexivity|].
  cbn [toWellFormed isWellFormed].
  assert (Hrh : is_high_surrogate replacement = false) by reflexivity.
  assert (Hrl : is_low_surrogate replacement = false) by reflexivity.
  destruct (is_high_surrogate c) eqn:Hh.
  - destruct rest as [|d rest'].
    + split; [|discriminate]. intros E. injection E as E.
      rewrite <- E, Hrh in Hh. discriminate Hh.
    + destruct (is_low_surrogate d) eqn:Hd; cbn [andb].
      * rewrite <- (IH2 d rest' eq_refl). split.
        -- intros E. injection E as E. exact E.
        -- intros E. rewrite E. reflexivity.
      * split; [|discriminate]. intros E. injection E as E _.
        rewrite <- E, Hrh in Hh. discriminate Hh.
  - destruct (is_low_surrogate c) eqn:Hl; cbn [negb andb].
    + split; [|discriminate]. intros E. injection E as E _.
      rewrite <- E, Hrl in Hl. discriminate Hl.
    + rewrite <- IH1. split.
      * intros E. injection E as E. exact E.
      * intros E. rewrite E. reflexivity.
Qed.

End Utf8Replacement.

Section RoundTripAny.

Variable gcm_cipher :
  list byte -> list byte -> list byte -> result (list byte * list byte).
Variable gcm_decipher :
  list byte -> list byte -> list byte -> list byte -> result (list byte).
Variable ENCRYPTION_KEY : option jsstring.

(** X15. For every string, well-formed or not, [decrypt] of what
    [encrypt] returned is the string with each lone surrogate replaced by
    U+FFFD, and it is the string itself exactly when the string is
    well-formed. The provider is assumed to encrypt, and to decrypt what
    it encrypted, under a key of 32 bytes. *)
Theorem round_trip_makes_well_formed (plain : jsstring) (e : entropy) :
  seals gcm_cipher (key ENCRYPTION_KEY) ->
  opens gcm_cipher gcm_decipher (key ENCRYPTION_KEY) ->
  List.length (key ENCRYPTION_KEY) = 32%nat ->
  Forall code_unit plain ->
  exists s,
    fst (encrypt gcm_cipher ENCRYPTION_KEY plain e) = Ok s /\
    decrypt gcm_decipher ENCRYPTION_KEY s = Ok (toWellFormed plain) /\
    (toWellFormed plain = plain <-> Utf8.isWellFormed plain = true).
Proof.
  intros Hseals Hopens Hkey Hu.
  destruct (encrypt_succeeds gcm_cipher ENCRYPTION_KEY plain e Hseals Hkey)
    as (ct & tag & Hc & _ & _ & He).
  exists (envelope (nonce e) ct tag). rewrite He. split; [reflexivity|].
  split; [|apply Utf8Replacement.toWellFormed_fixed].
  rewrite decrypt_envelope, (Hopens _ _ _ _ Hc). cbn [bind].
  rewrite Utf8Replacement.decode_encode_any by exact Hu. reflexivity.
Qed.

End RoundTripAny.

(* ------------------------------------------------------------------ *)
(** ** The further properties at concrete inputs *)

(** A string with a lone high surrogate between two letters. *)
Lemma round_trip_makes_well_formed_at_sample :
  exists s,
    fst (encrypt Reference.cipher None [0x41; 0xD800; 0x42] Reference.counting) = Ok s /\
    decrypt Reference.decipher None s = Ok (toWellFormed [0x41; 0xD800; 0x42]) /\
    (toWellFormed [0x41; 0xD800; 0x42] = [0x41; 0xD800; 0x42]
     <-> Utf8.isWellFormed [0x41; 0xD800; 0x42] = true).
Proof.
  apply (round_trip_makes_well_formed Reference.cipher Reference.decipher None
           [0x41; 0xD800; 0x42] Reference.counting
           (ReferenceFacts.meets_seals _) (ReferenceFacts.meets_opens _)).
  - reflexivity.
  - repeat constructor; unfold code_unit; lia.
Defined.

(** The envelope of an SSN of 11 characters has 80. *)
Lemma envelope_size_and_alphabet_at_sample :
  exists s,
    fst (encrypt Reference.cipher None (js "123-45-6789") Reference.counting) = Ok s /\
    List.length s = (58 + 2 * List.length (Utf8.encode (js "123-45-6789")))%nat /\
    forallb envelope_unit s = true.
Proof.
  apply (envelope_size_and_alphabet Reference.cipher None (js "123-45-6789")
           Reference.counting (ReferenceFacts.meets_seals _)).
  reflexivity.
Defined.

Lemma envelope_never_plaintext_at_sample :
  (List.length (js "123-45-6789") < List.length sample_envelope)%nat /\
  sample_envelope <> js "123-45-6789".
Proof.
  apply (envelope_never_plaintext Reference.cipher None (js "123-45-6789")
           Reference.counting sample_envelope (ReferenceFacts.meets_seals _)).
  - reflexivity.
  - vm_compute. reflexivity.
Defined.

Lemma decrypt_accepts_upper_case_at_sample :
  decrypt Reference.decipher None (upper_hex sample_envelope)
  = decrypt Reference.decipher None sample_envelope.
Proof.
  apply (decrypt_accepts_upper_case Reference.cipher Reference.decipher None
           (js "123-45-6789") Reference.counting sample_envelope).
  vm_compute. reflexivity.
Defined.

(** A legacy SSN handed to [decrypt]. *)
Lemma unmigrated_value_rejected_at_sample :
  decrypt Reference.decipher None (js "123-45-6789") = Throw ERR_INVALID_ARG_TYPE.
Proof.
  apply (unmigrated_value_rejected Reference.decipher None
           {| id := 1; ssn := Some (js "123-45-6789") |} (js "123-45-6789")).
  - reflexivity.
  - reflexivity.
Defined.

(** A key of two characters, the second one outside ASCII: three bytes. *)
Lemma key_bytes_and_units_at_sample :
  (List.length accented_key <= List.length (key (Some accented_key)))%nat /\
  (List.length (key (Some accented_key)) = List.length accented_key
   <-> Forall (fun c => c < 0x80) accented_key).
Proof.
  apply (key_bytes_and_units accented_key).
  repeat constructor; unfold code_unit; lia.
Defined.

(** The legacy table swept with [ENCRYPTION_KEY=short]. *)
Lemma sweep_stops_on_refused_key_at_sample :
  users (snd (encrypt_ssns Reference.cipher (Some (js "short")) legacy_world))
  = users legacy_world /\
  (existsb unprotected (users legacy_world) = true ->
   fst (encrypt_ssns Reference.cipher (Some (js "short")) legacy_world)
   = Some ERR_CRYPTO_INVALID_KEYLEN /\
   console (snd (encrypt_ssns Reference.cipher (Some (js "short")) legacy_world))
   = console legacy_world ++ [LogBanner]) /\
  (existsb unprotected (users legacy_world) = false ->
   fst (encrypt_ssns Reference.cipher (Some (js "short")) legacy_world) = None).
Proof.
  apply (sweep_stops_on_refused_key Reference.cipher Reference.decipher
           (Some (js "short")) legacy_world (ReferenceFacts.meets_key_length _)).
  vm_compute. discriminate.
Defined.

(** One run over the legacy table encrypts one row. *)
Lemma sweep_draws_twelve_bytes_per_row_at_sample :
  tape (rng (snd (encrypt_ssns Reference.cipher None legacy_world)))
  = tape (rng legacy_world) /\
  cursor (rng (snd (encrypt_ssns Reference.cipher None legacy_world)))
  = (cursor (rng legacy_world)
     + 12 * List.length (filter unprotected (users legacy_world)))%nat.
Proof.
  apply (sweep_draws_twelve_bytes_per_row Reference.cipher None legacy_world
           (ReferenceFacts.meets_seals _)).
  reflexivity.
Defined.
